(** * BlueScope: the Bluetooth discovery logger [bt_sniffer.py]

    A shallow embedding of the record model, the two ingest adapters, the
    cross-transport merge of [main_async] and the two output helpers, with
    the properties of the discovery-aggregation engine proved over it.

    Conventions of the embedding.
    - A Python [str] is a [string]; its characters are the code points
      below 256.  [None]-able values are [option]s.
    - A Python [dict] is an insertion-ordered association list ([dict_get],
      [dict_setitem]); a Python [set] of strings is a [gset string].
    - Record objects are mutated in place by the program; here the mutated
      record is written back under its key, which keeps its position.
    - [utc_now_iso] reads the wall clock: the clock is an oracle giving the
      k-th reading, and code that reads it threads the number of readings
      made so far ([Clocked]).
    - [print] output is not modelled. *)

From Stdlib Require Import ZArith Ascii Strings.Byte DecimalString.
From stdpp Require Import base option list gmap strings sorting.

Open Scope Z_scope.

(** ** Python values and truthiness *)

(** [bool(x)] for an optional string: [None] and [''] are falsy. *)
Definition truthy_str (x : option string) : bool :=
  match x with
  | Some (String _ _) => true
  | _ => false
  end.

(** [bool(x)] for an optional integer: [None] and [0] are falsy. *)
Definition truthy_int (x : option Z) : bool :=
  match x with
  | Some z => negb (z =? 0)
  | None => false
  end.

(** [x or y]: [x] when it is truthy, [y] otherwise. *)
Definition py_or {A} (truthy : A → bool) (x y : A) : A :=
  if truthy x then x else y.

(** [x or "literal"] where the right operand is a string literal. *)
Definition str_or (x : option string) (dflt : string) : string :=
  match x with
  | Some (String a s) => String a s
  | _ => dflt
  end.

(** ** Insertion-ordered dictionaries *)

Section pydict.
Context {K V : Type} `{EqDecision K}.

(** [d.get(k)] *)
Fixpoint dict_get (k : K) (d : list (K * V)) : option V :=
  match d with
  | [] => None
  | (k', v) :: d' => if decide (k = k') then Some v else dict_get k d'
  end.

(** [d[k] = v]: an existing key keeps its position, a new key goes last. *)
Fixpoint dict_setitem (k : K) (v : V) (d : list (K * V)) : list (K * V) :=
  match d with
  | [] => [(k, v)]
  | (k', v') :: d' =>
      if decide (k = k') then (k', v) :: d' else (k', v') :: dict_setitem k v d'
  end.

(** [d.keys()], [d.values()] *)
Definition dict_keys (d : list (K * V)) : list K := d.*1.
Definition dict_values (d : list (K * V)) : list V := d.*2.

(** [d.update(other)] *)
Definition dict_update (d other : list (K * V)) : list (K * V) :=
  foldl (λ acc kv, dict_setitem kv.1 kv.2 acc) d other.

(** [bool(d)] *)
Definition dict_truthy (d : list (K * V)) : bool :=
  match d with [] => false | _ => true end.
End pydict.

(** ** The clock *)

(** A computation that may read the clock: from the number of readings made
    so far to a result and the new number of readings. *)
Definition Clocked (A : Type) : Type := nat → A * nat.

Global Instance Clocked_ret : MRet Clocked := λ A a k, (a, k).
Global Instance Clocked_bind : MBind Clocked :=
  λ A B f m k, let '(a, k') := m k in f a k'.

(** ** Bytes *)

Definition hex_digit (n : N) : ascii :=
  match n with
  | 0 => "0" | 1 => "1" | 2 => "2" | 3 => "3" | 4 => "4" | 5 => "5"
  | 6 => "6" | 7 => "7" | 8 => "8" | 9 => "9" | 10 => "a" | 11 => "b"
  | 12 => "c" | 13 => "d" | 14 => "e" | _ => "f"
  end%N%char.

(** [b.hex()] *)
Fixpoint bytes_hex (b : list byte) : string :=
  match b with
  | [] => ""
  | x :: b' =>
      let n := Byte.to_N x in
      String (hex_digit (n / 16)) (String (hex_digit (n mod 16)) (bytes_hex b'))
  end.

(** ** Device records *)

(** A manufacturer-data key.  [CidInt z] is a company identifier that [int]
    accepts, [z] being its value (the provider's keys are integers);
    [CidRaw s] is a key on which [int(cid)] raises, kept as given. *)
Inductive Cid :=
  | CidInt (z : Z)
  | CidRaw (s : string).

Global Instance Cid_eq_dec : EqDecision Cid.
Proof. solve_decision. Defined.

(** [int(cid)] inside [try] / [except]: the key stored in the record. *)
Definition manufacturer_key (cid : Cid) : Cid :=
  match cid with
  | CidInt z => CidInt z
  | CidRaw s => CidRaw s
  end.

Record DeviceRecord := {
  address : string;
  transport : string;
  name : option string;
  rssi : option Z;
  tx_power : option Z;
  appearance : option Z;
  connectable : option bool;
  address_type : option string;
  service_uuids : gset string;
  service_data : list (string * string);
  manufacturer_data : list (Cid * string);
  device_class : option Z;
  first_seen : string;
  last_seen : string;
  sightings : Z
}.

(** The record store: address to record, in creation order. *)
Abbreviation Store := (list (string * DeviceRecord)).

Definition with_name (v : option string) (r : DeviceRecord) : DeviceRecord :=
  {| address := address r; transport := transport r; name := v;
     rssi := rssi r; tx_power := tx_power r; appearance := appearance r;
     connectable := connectable r; address_type := address_type r;
     service_uuids := service_uuids r; service_data := service_data r;
     manufacturer_data := manufacturer_data r;
     device_class := device_class r; first_seen := first_seen r;
     last_seen := last_seen r; sightings := sightings r |}.

Definition with_device_class (v : option Z) (r : DeviceRecord) : DeviceRecord :=
  {| address := address r; transport := transport r; name := name r;
     rssi := rssi r; tx_power := tx_power r; appearance := appearance r;
     connectable := connectable r; address_type := address_type r;
     service_uuids := service_uuids r; service_data := service_data r;
     manufacturer_data := manufacturer_data r;
     device_class := v; first_seen := first_seen r;
     last_seen := last_seen r; sightings := sightings r |}.

(** The BLE provider's callback arguments.  An attribute read through
    [getattr(_, _, None)] is [None] when the attribute is missing; a missing
    list or mapping is the empty one (both are falsy). *)
Record BLEDevice := {
  dev_address : option string;
  dev_mac_address : option string;
  dev_name : option string;
  dev_rssi : option Z
}.

Record AdvertisementData := {
  local_name : option string;
  adv_rssi : option Z;
  adv_tx_power : option Z;
  adv_appearance : option Z;
  adv_connectable : option bool;
  adv_address_type : option string;
  adv_service_uuids : list string;
  adv_service_data : list (string * list byte);
  adv_manufacturer_data : list (Cid * list byte)
}.

(** One item of the Classic inquiry result: a tuple of length 3, or the
    fallback shapes, a tuple of another length with at least two components
    ([Item2], of which only the first two are read) and a tuple of length 1. *)
Inductive InquiryItem :=
  | Item3 (addr : string) (nm : option string) (dev_class : option Z)
  | Item2 (addr : string) (nm : option string)
  | Item1 (addr : string).

Section sniffer.
(** The k-th reading of [datetime.now(timezone.utc).isoformat()]. *)
Variable clock : nat → string.

Definition utc_now_iso : Clocked string := λ k, (clock k, S k).

(** [DeviceRecord.__init__] *)
Definition DeviceRecord_init (addr tr : string) : Clocked DeviceRecord :=
  now ← utc_now_iso;
  mret {| address := addr; transport := tr; name := None; rssi := None;
          tx_power := None; appearance := None; connectable := None;
          address_type := None; service_uuids := ∅; service_data := [];
          manufacturer_data := []; device_class := None;
          first_seen := now; last_seen := now; sightings := 0 |}.

(** [DeviceRecord.update_last_seen] *)
Definition update_last_seen (r : DeviceRecord) : Clocked DeviceRecord :=
  now ← utc_now_iso;
  mret {| address := address r; transport := transport r; name := name r;
          rssi := rssi r; tx_power := tx_power r;
          appearance := appearance r; connectable := connectable r;
          address_type := address_type r;
          service_uuids := service_uuids r;
          service_data := service_data r;
          manufacturer_data := manufacturer_data r;
          device_class := device_class r; first_seen := first_seen r;
          last_seen := now; sightings := sightings r + 1 |}.

(** *** BLE ingest: [scan_ble.on_detect] *)

(** [getattr(device, "address", None) or getattr(device, "mac_address",
    None) or "UNKNOWN"] *)
Definition detect_address (device : BLEDevice) : string :=
  str_or (py_or truthy_str (dev_address device) (dev_mac_address device))
         "UNKNOWN".

(** [records.get(addr)], creating and storing the record when absent. *)
Definition get_or_create (addr tr : string) (records : Store)
  : Clocked (Store * DeviceRecord) :=
  match dict_get addr records with
  | Some rec => mret (records, rec)
  | None =>
      rec ← DeviceRecord_init addr tr;
      mret (dict_setitem addr rec records, rec)
  end.

(** The field assignments of [on_detect], lines 77 to 101. *)
Definition detect_fields (device : BLEDevice) (adv : AdvertisementData)
    (rec : DeviceRecord) : DeviceRecord :=
  {| address := address rec;
     transport := transport rec;
     name := py_or truthy_str (dev_name device)
               (py_or truthy_str (local_name adv) (name rec));
     rssi := if adv_rssi adv is Some v then Some v else dev_rssi device;
     tx_power := adv_tx_power adv;
     appearance := adv_appearance adv;
     connectable := adv_connectable adv;
     address_type := adv_address_type adv;
     service_uuids :=
       foldl (λ s u, s ∪ {[u]}) (service_uuids rec) (adv_service_uuids adv);
     service_data :=
       foldl (λ d ub, dict_setitem ub.1 (bytes_hex ub.2) d)
             (service_data rec) (adv_service_data adv);
     manufacturer_data :=
       foldl (λ d cb, dict_setitem (manufacturer_key cb.1) (bytes_hex cb.2) d)
             (manufacturer_data rec) (adv_manufacturer_data adv);
     device_class := device_class rec;
     first_seen := first_seen rec;
     last_seen := last_seen rec;
     sightings := sightings rec |}.

Definition on_detect (records : Store)
    (ev : BLEDevice * AdvertisementData) : Clocked Store :=
  let addr := detect_address ev.1 in
  '(records, rec) ← get_or_create addr "BLE" records;
  rec ← update_last_seen (detect_fields ev.1 ev.2 rec);
  mret (dict_setitem addr rec records).

(** *** BLE ingest: [scan_ble] *)

(** The body of a [for] loop that threads the clock. *)
Fixpoint for_each {A S} (body : S → A → Clocked S) (s : S) (l : list A)
  : Clocked S :=
  match l with
  | [] => mret s
  | x :: l' => s' ← body s x; for_each body s' l'
  end.

(** What the scanner does between [start] and [stop]: the callbacks it
    delivers, in order, and whether [start], the timed wait or [stop]
    raised.  The raise is caught and reported. *)
Record BleSession := {
  detections : list (BLEDevice * AdvertisementData);
  scan_error : option string
}.

(** [scan_ble]; [bleak] is [None] when the import raised. *)
Definition scan_ble (bleak : option BleSession) : Clocked Store :=
  match bleak with
  | None => mret []
  | Some session => for_each on_detect [] (detections session)
  end.

(** *** Classic ingest: [scan_classic] *)

Inductive exn :=
  | TypeError
  | Exception (what : string).

Inductive result (A : Type) :=
  | Ok (a : A)
  | Raise (e : exn).
Global Arguments Ok {A} a.
Global Arguments Raise {A} e.

(** The two ways [scan_classic] calls [bluetooth.discover_devices]: with
    [lookup_class=True], and without it. *)
Record PyBluez := {
  discover_devices_class : result (list InquiryItem);
  discover_devices : result (list (string * option string))
}.

(** Lines 134 to 140. *)
Definition inquiry (bluetooth : PyBluez) : result (list InquiryItem) :=
  match discover_devices_class bluetooth with
  | Ok devices => Ok devices
  | Raise TypeError =>
      match discover_devices bluetooth with
      | Ok devices => Ok (map (λ an, Item3 an.1 an.2 None) devices)
      | Raise e => Raise e
      end
  | Raise e => Raise e
  end.

(** Lines 143 to 148: [(addr, name, dev_class)] of an item. *)
Definition unpack_item (item : InquiryItem)
  : string * option string * option Z :=
  match item with
  | Item3 addr nm dev_class => (addr, nm, dev_class)
  | Item2 addr nm => (addr, nm, None)
  | Item1 addr => (addr, None, None)
  end.

(** Lines 150 to 157: the body of the loop over the inquiry result. *)
Definition classic_upsert (records : Store) (item : InquiryItem)
  : Clocked Store :=
  let '(addr, nm, dev_class) := unpack_item item in
  '(records, rec) ← get_or_create addr "Classic" records;
  rec ← update_last_seen
          (with_device_class dev_class
             (with_name (py_or truthy_str nm (name rec)) rec));
  mret (dict_setitem addr rec records).

(** [scan_classic]; [bluetooth] is [None] when the import raised. *)
Definition scan_classic (bluetooth : option PyBluez)
  : Clocked (result Store) :=
  match bluetooth with
  | None => mret (Ok [])
  | Some bt =>
      match inquiry bt with
      | Ok devices =>
          records ← for_each classic_upsert [] devices;
          mret (Ok records)
      | Raise e => mret (Raise e)
      end
  end.

(** *** The coordinator: [main_async], lines 205 to 236 *)

Inductive Mode := ModeBle | ModeClassic | ModeBoth.

Record Args := {
  mode : Mode;
  seconds : Z;
  adapter : option string;
  json_path : option string;
  csv_path : option string;
  verbose : bool
}.

(** Lines 224 to 230: the body of the loop over [classic_records.items()]. *)
Definition merge_item (all_records : Store) (item : string * DeviceRecord)
  : Clocked Store :=
  match dict_get item.1 all_records with
  | Some existing =>
      existing ← update_last_seen
                   (with_device_class
                      (py_or truthy_int (device_class existing)
                                        (device_class item.2))
                      existing);
      mret (dict_setitem item.1 existing all_records)
  | None => mret (dict_setitem item.1 item.2 all_records)
  end.

Definition runs_ble (m : Mode) : bool :=
  match m with ModeBle | ModeBoth => true | ModeClassic => false end.
Definition runs_classic (m : Mode) : bool :=
  match m with ModeClassic | ModeBoth => true | ModeBle => false end.

(** Lines 207 to 231: the store handed to the output helpers, or the
    exception that leaves [main_async]. *)
Definition discover (m : Mode) (bleak : option BleSession)
    (bluetooth : option PyBluez) : Clocked (result Store) :=
  _ ← utc_now_iso;
  all_records ←
    (if runs_ble m then
       ble_records ← scan_ble bleak;
       mret (dict_update [] ble_records)
     else mret []);
  if runs_classic m then
    scanned ← scan_classic bluetooth;
    match scanned with
    | Ok classic_records =>
        all_records ← for_each merge_item all_records classic_records;
        mret (Ok all_records)
    | Raise e => mret (Raise e)
    end
  else mret (Ok all_records).

End sniffer.

(** ** JSON text

    The fragment of the [json] module the output helpers use: documents of
    nulls, booleans, integers, strings, arrays and objects; [dumps] as
    [json.dumps] writes them with its defaults, [dump_indent] as
    [json.dump(_, ensure_ascii=False, indent=2)] does, and [loads] as
    [json.loads] reads text back.  An object is the list of its members in
    the order of the text. *)
Module Json.

Local Unset Elimination Schemes.
Inductive json :=
  | JNull
  | JBool (b : bool)
  | JNum (z : Z)
  | JStr (s : string)
  | JArr (items : list json)
  | JObj (members : list (string * json)).
Local Set Elimination Schemes.

Definition quote : ascii := "034"%char.
Definition backslash : ascii := "092"%char.
Definition newline : ascii := "010"%char.

Definition hex4 (n : N) : string :=
  String (hex_digit (n / 4096 mod 16))
    (String (hex_digit (n / 256 mod 16))
       (String (hex_digit (n / 16 mod 16))
          (String (hex_digit (n mod 16)) "")))%N.

(** One character inside a string literal.  With [ensure_ascii] every
    character outside the printable ASCII range is written as a
    [\uXXXX] escape; without it only the control characters are. *)
Definition escape_char (ensure_ascii : bool) (c : ascii) : string :=
  let n := N_of_ascii c in
  if (n =? 34)%N then String backslash (String quote "")
  else if (n =? 92)%N then String backslash (String backslash "")
  else if (n =? 10)%N then String backslash "n"
  else if (n =? 13)%N then String backslash "r"
  else if (n =? 9)%N then String backslash "t"
  else if (n =? 8)%N then String backslash "b"
  else if (n =? 12)%N then String backslash "f"
  else if (n <? 32)%N || (ensure_ascii && (126 <? n)%N)
    then String backslash (String "u" (hex4 n))
  else String c "".

Fixpoint escape (ensure_ascii : bool) (s : string) : string :=
  match s with
  | EmptyString => ""
  | String c s' => escape_char ensure_ascii c +:+ escape ensure_ascii s'
  end.

Definition literal (ensure_ascii : bool) (s : string) : string :=
  String quote (escape ensure_ascii s +:+ String quote "").

Definition decimal (z : Z) : string := NilZero.string_of_int (Z.to_int z).

(** [json.dumps(j)] *)
Fixpoint dumps (j : json) : string :=
  match j with
  | JNull => "null"
  | JBool true => "true"
  | JBool false => "false"
  | JNum z => decimal z
  | JStr s => literal true s
  | JArr items => "[" +:+ String.concat ", " (map dumps items) +:+ "]"
  | JObj members =>
      "{" +:+ String.concat ", "
                (map (λ kv, let '(k, v) := kv in
                            literal true k +:+ ": " +:+ dumps v) members)
          +:+ "}"
  end.

(** A line break followed by the indentation of [level]. *)
Definition newline_indent (level : nat) : string :=
  String newline (String.concat "" (replicate (2 * level) " ")).

(** [json.dump(j, f, ensure_ascii=False, indent=2)], at nesting [level]. *)
Fixpoint dump_indent (level : nat) (j : json) : string :=
  match j with
  | JNull => "null"
  | JBool true => "true"
  | JBool false => "false"
  | JNum z => decimal z
  | JStr s => literal false s
  | JArr [] => "[]"
  | JArr items =>
      "[" +:+ newline_indent (S level)
          +:+ String.concat ("," +:+ newline_indent (S level))
                (map (dump_indent (S level)) items)
          +:+ newline_indent level +:+ "]"
  | JObj [] => "{}"
  | JObj members =>
      "{" +:+ newline_indent (S level)
          +:+ String.concat ("," +:+ newline_indent (S level))
                (map (λ kv, let '(k, v) := kv in
                            literal false k +:+ ": "
                              +:+ dump_indent (S level) v) members)
          +:+ newline_indent level +:+ "}"
  end.

(** *** Reading *)



Definition hex_value (c : ascii) : option N :=
  let n := N_of_ascii c in
  if ((48 <=? n) && (n <=? 57))%N then Some (n - 48)%N
  else if ((97 <=? n) && (n <=? 102))%N then Some (n - 87)%N
  else if ((65 <=? n) && (n <=? 70))%N then Some (n - 55)%N
  else None.










End Json.

(** ** The serializer *)

Import Json.

(** The dictionary [to_row] returns: fifteen fixed keys, so a record. *)
Record Row := {
  row_address : string;
  row_transport : string;
  row_name : option string;
  row_rssi : option Z;
  row_tx_power : option Z;
  row_appearance : option Z;
  row_connectable : option bool;
  row_address_type : option string;
  row_device_class : option Z;
  row_service_uuids : option (list string);
  row_service_data : option (list (string * string));
  row_manufacturer_data : option (list (Cid * string));
  row_first_seen : string;
  row_last_seen : string;
  row_sightings : Z
}.

(** [sorted(list(s))] for a set of strings. *)
Definition sorted_list (s : gset string) : list string :=
  merge_sort String.le (elements s).

(** [DeviceRecord.to_row] *)
Definition to_row (r : DeviceRecord) : Row :=
  {| row_address := address r;
     row_transport := transport r;
     row_name := name r;
     row_rssi := rssi r;
     row_tx_power := tx_power r;
     row_appearance := appearance r;
     row_connectable := connectable r;
     row_address_type := address_type r;
     row_device_class := device_class r;
     row_service_uuids :=
       if decide (service_uuids r = ∅) then None
       else Some (sorted_list (service_uuids r));
     row_service_data :=
       if dict_truthy (service_data r) then Some (service_data r) else None;
     row_manufacturer_data :=
       if dict_truthy (manufacturer_data r)
       then Some (manufacturer_data r) else None;
     row_first_seen := first_seen r;
     row_last_seen := last_seen r;
     row_sightings := sightings r |}.

(** The documents [json] writes for the values of a row.  A dictionary key
    that is an integer is written as its decimal text. *)
Definition json_opt {A} (enc : A → json) (x : option A) : json :=
  match x with
  | Some v => enc v
  | None => JNull
  end.

Definition json_uuids (l : list string) : json := JArr (JStr <$> l).

Definition json_service_data (d : list (string * string)) : json :=
  JObj ((λ kv, (kv.1, JStr kv.2)) <$> d).

Definition key_text (k : Cid) : string :=
  match k with
  | CidInt z => decimal z
  | CidRaw s => s
  end.

Definition json_manufacturer_data (d : list (Cid * string)) : json :=
  JObj ((λ kv, (key_text kv.1, JStr kv.2)) <$> d).

Definition row_json (r : Row) : json :=
  JObj [ ("address", JStr (row_address r));
         ("transport", JStr (row_transport r));
         ("name", json_opt JStr (row_name r));
         ("rssi", json_opt JNum (row_rssi r));
         ("tx_power", json_opt JNum (row_tx_power r));
         ("appearance", json_opt JNum (row_appearance r));
         ("connectable", json_opt JBool (row_connectable r));
         ("address_type", json_opt JStr (row_address_type r));
         ("device_class", json_opt JNum (row_device_class r));
         ("service_uuids", json_opt json_uuids (row_service_uuids r));
         ("service_data", json_opt json_service_data (row_service_data r));
         ("manufacturer_data",
          json_opt json_manufacturer_data (row_manufacturer_data r));
         ("first_seen", JStr (row_first_seen r));
         ("last_seen", JStr (row_last_seen r));
         ("sightings", JNum (row_sightings r)) ].

(** The document [write_json] hands to [json.dump]. *)
Definition json_document (records : Store) : json :=
  JArr (row_json <$> (to_row <$> dict_values records)).

(** What is written to a file: the text of a JSON file, or the cells of a
    CSV file, header first.  The quoting the [csv] module applies to a cell
    is undone by any reader and is not modelled. *)
Inductive Content :=
  | JsonText (text : string)
  | CsvCells (table : list (list string)).

(** [write_json] *)
Definition write_json (path : string) (records : Store) : string * Content :=
  (path, JsonText (dump_indent 0 (json_document records))).

(** Lines 172 to 178: a composite value that is a list or a dictionary is
    replaced by its JSON text; [None] stays. *)
Definition expand {A} (enc : A → json) (x : option A) : option string :=
  match x with
  | Some v => Some (dumps (enc v))
  | None => None
  end.

(** How [csv.DictWriter] writes a value: [None] as the empty cell, a string
    as it is, anything else through [str]. *)
Definition cell_str (x : option string) : string := default "" x.
Definition cell_int (x : option Z) : string := default "" (decimal <$> x).
Definition cell_bool (x : option bool) : string :=
  match x with
  | Some true => "True"
  | Some false => "False"
  | None => ""
  end.

Definition fieldnames : list string :=
  [ "address"; "transport"; "name"; "rssi"; "tx_power"; "appearance";
    "connectable"; "address_type"; "device_class"; "service_uuids";
    "service_data"; "manufacturer_data"; "first_seen"; "last_seen";
    "sightings" ].

(** The three composite cells of a CSV row. *)
Definition cell_service_uuids (r : Row) : string :=
  cell_str (expand json_uuids (row_service_uuids r)).
Definition cell_service_data (r : Row) : string :=
  cell_str (expand json_service_data (row_service_data r)).
Definition cell_manufacturer_data (r : Row) : string :=
  cell_str (expand json_manufacturer_data (row_manufacturer_data r)).

(** [w.writerow(r)] after the expansion, in the order of [fieldnames]. *)
Definition csv_row (r : Row) : list string :=
  [ row_address r; row_transport r; cell_str (row_name r);
    cell_int (row_rssi r); cell_int (row_tx_power r);
    cell_int (row_appearance r); cell_bool (row_connectable r);
    cell_str (row_address_type r); cell_int (row_device_class r);
    cell_service_uuids r; cell_service_data r; cell_manufacturer_data r;
    row_first_seen r; row_last_seen r; decimal (row_sightings r) ].

(** [write_csv] *)
Definition write_csv (path : string) (records : Store) : string * Content :=
  (path, CsvCells (fieldnames :: (csv_row <$> (to_row <$> dict_values records)))).

(** ** Outputs: [main_async], lines 238 to 250 *)

(** [datetime.now()], broken down. *)
Record LocalTime := {
  year : N; month : N; day : N;
  hour : N; minute : N; second : N
}.

Definition digits (n : N) : string := NilZero.string_of_uint (N.to_uint n).

(** Zero padding to [width] characters. *)
Definition zfill (width : nat) (s : string) : string :=
  String.concat "" (replicate (width - String.length s) "0") +:+ s.

(** [strftime("%Y%m%d-%H%M%S")] *)
Definition strftime (t : LocalTime) : string :=
  zfill 4 (digits (year t)) +:+ zfill 2 (digits (month t))
    +:+ zfill 2 (digits (day t)) +:+ "-" +:+ zfill 2 (digits (hour t))
    +:+ zfill 2 (digits (minute t)) +:+ zfill 2 (digits (second t)).

Definition default_json (ts : string) : string := "bt_scan_" +:+ ts +:+ ".json".

(** The files written, in order. *)
Definition write_outputs (args : Args) (ts : string) (all_records : Store)
  : list (string * Content) :=
  (if truthy_str (json_path args)
   then [write_json (default "" (json_path args)) all_records] else [])
  ++ (if truthy_str (csv_path args)
      then [write_csv (default "" (csv_path args)) all_records] else [])
  ++ (if negb (truthy_str (json_path args)) && negb (truthy_str (csv_path args))
      then [write_json (default_json ts) all_records] else []).

(** [main_async]: the files it writes, or the exception that leaves it. *)
Definition main_async (clock : nat → string) (args : Args)
    (bleak : option BleSession) (bluetooth : option PyBluez)
    (now : LocalTime) : Clocked (result (list (string * Content))) :=
  found ← discover clock (mode args) bleak bluetooth;
  match found with
  | Ok all_records => mret (Ok (write_outputs args (strftime now) all_records))
  | Raise e => mret (Raise e)
  end.

(** ** Vocabulary of the properties *)

(** The wall clock never runs backwards.  Readings are compared as the
    texts [isoformat] gives for UTC instants, whose order as texts is the
    order of the instants (a reading on a whole second has no fraction and
    sorts before the readings within that second). *)
Definition clock_monotone (clock : nat → string) : Prop :=
  ∀ i j : nat, (i ≤ j)%nat → String.le (clock i) (clock j).




(** The number of detection events of a scan that are for [addr]. *)
Definition ble_events_for (addr : string)
    (events : list (BLEDevice * AdvertisementData)) : nat :=
  length (filter (λ ev, detect_address ev.1 = addr) events).

Definition classic_items_for (addr : string) (devices : list InquiryItem)
  : nat :=
  length (filter (λ item, (unpack_item item).1.1 = addr) devices).

(** [r'] is [r] but for the device class and one more sighting: every other
    field is the same. *)
Definition unchanged_but_sighting (r r' : DeviceRecord) : Prop :=
  address r' = address r ∧ transport r' = transport r ∧ name r' = name r
  ∧ rssi r' = rssi r ∧ tx_power r' = tx_power r
  ∧ appearance r' = appearance r ∧ connectable r' = connectable r
  ∧ address_type r' = address_type r
  ∧ service_uuids r' = service_uuids r ∧ service_data r' = service_data r
  ∧ manufacturer_data r' = manufacturer_data r
  ∧ first_seen r' = first_seen r.

(** A device that exposes neither [address] nor [mac_address]. *)
Definition identity_less (device : BLEDevice) : Prop :=
  dev_address device = None ∧ dev_mac_address device = None.

(** The value of a key in the JSON object of a row. *)
Definition row_member (key : string) (r : Row) : option json :=
  match row_json r with
  | JObj members => dict_get key members
  | _ => None
  end.





(** The sightings counter an address has in a store; zero when it has no
    record. *)
Definition sightings_at (addr : string) (st : Store) : Z :=
  from_option sightings 0 (dict_get addr st).

(** The record an upsert starts from, and the readings made to get it. *)
Definition upsert_base (clock : nat → string) (addr tr : string)
    (st : Store) (k : nat) : DeviceRecord * nat :=
  match dict_get addr st with
  | Some rec => (rec, k)
  | None => DeviceRecord_init clock addr tr k
  end.

(** The detection events and the inquiry items a run processes. *)
Definition events_processed (m : Mode) (bleak : option BleSession)
  : list (BLEDevice * AdvertisementData) :=
  if runs_ble m then from_option detections [] bleak else [].

Definition items_processed (m : Mode) (bluetooth : option PyBluez)
  : list InquiryItem :=
  if runs_classic m then
    match bluetooth with
    | Some bt => match inquiry bt with Ok devices => devices | Raise _ => [] end
    | None => []
    end
  else [].

(** The record a collision of the merge leaves: the existing record with
    the device class of line 227 and one more sighting, read at [j]. *)
Definition merged_record (clock : nat → string) (existing rec : DeviceRecord)
    (j : nat) : DeviceRecord :=
  (update_last_seen clock
     (with_device_class
        (py_or truthy_int (device_class existing) (device_class rec))
        existing) j).1.

(** The part of the invariants that does not depend on the clock. *)
Definition store_wf (st : Store) : Prop :=
  NoDup (dict_keys st)
  ∧ ∀ addr r, dict_get addr st = Some r → address r = addr ∧ 1 ≤ sightings r.

(** Records as the BLE adapter makes them. *)
Definition ble_made (st : Store) : Prop :=
  ∀ addr r, dict_get addr st = Some r →
    transport r = "BLE" ∧ device_class r = None.

(** Example inputs: a device with an address, an advertisement that carries
    a signal strength and UUIDs, and a run in which one address is seen once
    by the BLE scan and twice by the Classic inquiry. *)
Definition example_device (addr nm : option string) : BLEDevice :=
  {| dev_address := addr; dev_mac_address := None; dev_name := nm;
     dev_rssi := None |}.

Definition example_adv (signal : option Z) (uuids : list string)
  : AdvertisementData :=
  {| local_name := None; adv_rssi := signal; adv_tx_power := None;
     adv_appearance := None; adv_connectable := None;
     adv_address_type := None; adv_service_uuids := uuids;
     adv_service_data := []; adv_manufacturer_data := [] |}.

Definition collision_session : BleSession :=
  {| detections :=
       [(example_device (Some "AA:BB") (Some "X"),
         example_adv (Some (-50)) ["180f"; "180a"])];
     scan_error := None |}.

Definition collision_inquiry : PyBluez :=
  {| discover_devices_class :=
       Ok [Item3 "AA:BB" (Some "Phone") (Some 42);
           Item3 "AA:BB" (Some "Handset") (Some 42);
           Item3 "11:22" None None];
     discover_devices := Ok [] |}.

(** A scan in which two devices that expose no address are seen, and
    between them one that has an address. *)
Definition anonymous_events : list (BLEDevice * AdvertisementData) :=
  [ (example_device None (Some "Tag"), example_adv (Some (-60)) ["180f"]);
    (example_device (Some "AA:BB") (Some "X"), example_adv None ["1812"]);
    (example_device None (Some "Band"), example_adv (Some (-70)) ["180d"]) ].



(** The scenarios of the specification.  A: three BLE events for two
    addresses.  B: a Classic inquiry on a provider without class lookup. *)
Definition scenario_A : BleSession :=
  {| detections :=
       [ (example_device (Some "AA:BB") (Some "X"), example_adv (Some (-50)) []);
         (example_device (Some "AA:BB") None, example_adv (Some (-45)) []);
         (example_device (Some "CC:DD") (Some "Y"), example_adv None []) ];
     scan_error := None |}.

Definition scenario_B : PyBluez :=
  {| discover_devices_class := Raise TypeError;
     discover_devices := Ok [("11:22", Some "Phone"); ("33:44", None)] |}.

(** A clock for the examples: the k-th reading is a second later than the
    one before it, within one minute. *)
Definition example_clock (k : nat) : string :=
  "2024-03-07T09:05:" +:+ zfill 2 (digits (N.of_nat (k `min` 59)))
    +:+ "+00:00".

(** ** Vocabulary of the further properties *)

(** The distinct elements of a list, in the order of their first
    occurrences: the order in which a dictionary gets its keys. *)
Definition first_occurrences (l : list string) : list string :=
  foldl (λ acc a, if decide (a ∈ acc) then acc else acc ++ [a]) [] l.

(** The address an inquiry item is for. *)
Definition item_address (item : InquiryItem) : string :=
  (unpack_item item).1.1.

(** The device class an inquiry item carries. *)
Definition item_class (item : InquiryItem) : option Z :=
  (unpack_item item).2.

(** The events of a scan that are for [addr]. *)
Definition events_for (addr : string)
    (events : list (BLEDevice * AdvertisementData))
  : list (BLEDevice * AdvertisementData) :=
  filter (λ ev, detect_address ev.1 = addr) events.

(** The items of an inquiry that are for [addr]. *)
Definition items_for (addr : string) (devices : list InquiryItem)
  : list InquiryItem :=
  filter (λ item, item_address item = addr) devices.

(** The field assignments of [scan_classic], lines 155 and 156. *)
Definition classic_fields (item : InquiryItem) (rec : DeviceRecord)
  : DeviceRecord :=
  with_device_class (item_class item)
    (with_name (py_or truthy_str (unpack_item item).1.2 (name rec)) rec).

(** The name a BLE event carries: the device-level name, or else the local
    name of the advertisement. *)
Definition event_name (ev : BLEDevice * AdvertisementData) : option string :=
  py_or truthy_str (dev_name ev.1) (local_name ev.2).

(** The last name of a list that is present and not empty. *)
Definition latest_name (names : list (option string)) : option string :=
  default None (last (filter (λ n, truthy_str n = true) names)).

(** An event that carries service data and manufacturer data. *)
Definition beacon_event : BLEDevice * AdvertisementData :=
  (example_device (Some "AA:BB") None,
   {| local_name := Some "Beacon"; adv_rssi := Some (-60);
      adv_tx_power := Some (-4); adv_appearance := None;
      adv_connectable := Some false; adv_address_type := Some "random";
      adv_service_uuids := ["feaa"];
      adv_service_data := [("feaa", [Byte.x10; Byte.xff])];
      adv_manufacturer_data := [(CidInt 76, [Byte.x02; Byte.x15])] |}).

(** The characters [b.hex()] writes. *)
Definition is_lower_hex (c : ascii) : bool :=
  let n := N_of_ascii c in
  (((48 <=? n) && (n <=? 57)) || ((97 <=? n) && (n <=? 102)))%N.

(** The times of first sighting of the records of a store, in the order of
    the store. *)
Definition first_sightings (st : Store) : list string :=
  first_seen <$> dict_values st.

(** The first sightings of a store are in order, and each is a reading of
    the clock made from reading [k0] on and before reading [k]. *)
Definition sighted_in_order (clock : nat → string) (k0 k : nat) (st : Store)
  : Prop :=
  StronglySorted String.le (first_sightings st)
  ∧ Forall (λ t, ∃ j, (k0 ≤ j < k)%nat ∧ t = clock j) (first_sightings st).

(** * Properties *)

(** ** Dictionaries *)

Section pydict_facts.
Context {K V : Type} `{EqDecision K}.
Implicit Types (k : K) (v : V) (d other : list (K * V)).

Lemma dict_get_setitem_eq k v d : dict_get k (dict_setitem k v d) = Some v.
Proof.
  induction d as [|[k' v'] d IH]; simpl.
  - by rewrite decide_True.
  - destruct (decide (k = k')) as [->|Hne]; simpl.
    + by rewrite decide_True.
    + by rewrite decide_False.
Qed.

Lemma dict_get_setitem_ne k k' v d :
  k ≠ k' → dict_get k' (dict_setitem k v d) = dict_get k' d.
Proof.
  intros Hne. induction d as [|[k1 v1] d IH]; simpl.
  - by rewrite decide_False.
  - destruct (decide (k = k1)) as [->|Hk]; simpl.
    + by rewrite !decide_False.
    + destruct (decide (k' = k1)); [done | apply IH].
Qed.

Lemma dict_get_setitem k k' v d :
  dict_get k' (dict_setitem k v d)
  = if decide (k' = k) then Some v else dict_get k' d.
Proof.
  destruct (decide (k' = k)) as [->|Hne].
  - apply dict_get_setitem_eq.
  - by apply dict_get_setitem_ne.
Qed.

Lemma dict_get_None k d : dict_get k d = None ↔ k ∉ dict_keys d.
Proof.
  unfold dict_keys. induction d as [|[k' v'] d IH]; csimpl.
  - split; [intros _; apply not_elem_of_nil | done].
  - rewrite not_elem_of_cons.
    destruct (decide (k = k')) as [->|Hne].
    + split; [done | intros [? _]; done].
    + rewrite IH. split; [done | intros [_ ?]; done].
Qed.

Lemma dict_elem_of_get k v d :
  NoDup (dict_keys d) → (k, v) ∈ d → dict_get k d = Some v.
Proof.
  unfold dict_keys. induction d as [|[k' v'] d IH]; csimpl.
  - intros _ Hin. by apply elem_of_nil in Hin.
  - intros [Hnotin Hnd]%NoDup_cons [Heq|Hin]%elem_of_cons.
    + injection Heq as -> ->. by rewrite decide_True.
    + destruct (decide (k = k')) as [->|Hne]; [|by apply IH].
      exfalso. apply Hnotin. apply (list_elem_of_fmap_2 fst) in Hin. done.
Qed.

(** Storing under a present key keeps the keys; under a new key it adds
    the key at the end. *)
Lemma dict_keys_setitem k v d :
  dict_keys (dict_setitem k v d)
  = if dict_get k d is Some _ then dict_keys d else dict_keys d ++ [k].
Proof.
  unfold dict_keys. induction d as [|[k' v'] d IH]; csimpl; [done|].
  destruct (decide (k = k')) as [->|Hne]; csimpl; [done|].
  rewrite IH. by destruct (dict_get k d).
Qed.

Lemma dict_setitem_NoDup k v d :
  NoDup (dict_keys d) → NoDup (dict_keys (dict_setitem k v d)).
Proof.
  intros Hnd. rewrite dict_keys_setitem.
  destruct (dict_get k d) eqn:Hg; [done|].
  apply NoDup_app. split_and!; [done| |apply NoDup_singleton].
  intros x Hx ->%list_elem_of_singleton. by apply dict_get_None in Hg.
Qed.

Lemma dict_setitem_new k v d :
  dict_get k d = None → dict_setitem k v d = d ++ [(k, v)].
Proof.
  induction d as [|[k' v'] d IH]; simpl; [done|].
  destruct (decide (k = k')); [done|]. intros Hg. by rewrite IH.
Qed.

Lemma dict_setitem_setitem k v v' d :
  dict_setitem k v' (dict_setitem k v d) = dict_setitem k v' d.
Proof.
  induction d as [|[k1 v1] d IH]; simpl.
  - by rewrite decide_True.
  - destruct (decide (k = k1)) as [->|Hne]; simpl.
    + by rewrite decide_True.
    + by rewrite decide_False, IH.
Qed.

(** Copying a dictionary into one whose keys are all different appends
    it. *)
Lemma dict_update_app d other :
  NoDup (dict_keys (d ++ other)) → dict_update d other = d ++ other.
Proof.
  unfold dict_update. revert d.
  induction other as [|[k v] other IH]; intros d Hnd; simpl.
  - by rewrite app_nil_r.
  - rewrite dict_setitem_new.
    + rewrite IH; [by rewrite <-app_assoc|]. by rewrite <-app_assoc.
    + apply dict_get_None. unfold dict_keys in *.
      rewrite fmap_app in Hnd. simpl in Hnd.
      apply NoDup_app in Hnd as (_ & Hdisj & _).
      intros Hin. apply (Hdisj k Hin). left.
Qed.

Lemma dict_update_empty other :
  NoDup (dict_keys other) → dict_update [] other = other.
Proof. intros Hnd. by rewrite dict_update_app. Qed.
End pydict_facts.

(** ** One upsert *)

Section upsert_facts.
Variable clock : nat → string.
Implicit Types (st : Store) (k : nat) (r : DeviceRecord) (addr : string).

(** Both adapters upsert in the same way: fetch or create the record,
    assign fields, register the sighting, all on the one stored record. *)
Lemma upsert_run addr tr (assign : DeviceRecord → DeviceRecord) st k :
  ('(records, rec) ← get_or_create clock addr tr st;
   rec ← update_last_seen clock (assign rec);
   mret (dict_setitem addr rec records)) k
  = let base := upsert_base clock addr tr st k in
    let seen := update_last_seen clock (assign base.1) base.2 in
    (dict_setitem addr seen.1 st, seen.2).
Proof.
  unfold upsert_base, get_or_create, mbind, Clocked_bind, mret, Clocked_ret.
  destruct (dict_get addr st) as [rec|]; simpl; [done|].
  by rewrite dict_setitem_setitem.
Qed.

Lemma on_detect_run st ev k :
  on_detect clock st ev k
  = let addr := detect_address ev.1 in
    let base := upsert_base clock addr "BLE" st k in
    let seen :=
      update_last_seen clock (detect_fields ev.1 ev.2 base.1) base.2 in
    (dict_setitem addr seen.1 st, seen.2).
Proof. unfold on_detect. apply upsert_run. Qed.

Lemma classic_upsert_run st item k :
  classic_upsert clock st item k
  = let '(addr, nm, dev_class) := unpack_item item in
    let base := upsert_base clock addr "Classic" st k in
    let seen :=
      update_last_seen clock
        (with_device_class dev_class
           (with_name (py_or truthy_str nm (name base.1)) base.1))
        base.2 in
    (dict_setitem addr seen.1 st, seen.2).
Proof.
  unfold classic_upsert. destruct (unpack_item item) as [[addr nm] dc].
  apply (upsert_run addr "Classic"
           (λ rec, with_device_class dc
                     (with_name (py_or truthy_str nm (name rec)) rec))).
Qed.

Lemma upsert_base_ticks addr tr st k : (k ≤ (upsert_base clock addr tr st k).2)%nat.
Proof. unfold upsert_base. destruct (dict_get addr st); simpl; lia. Qed.





Lemma detect_fields_uuids device adv r :
  service_uuids (detect_fields device adv r)
  = service_uuids r ∪ list_to_set (adv_service_uuids adv).
Proof.
  simpl. generalize (service_uuids r).
  induction (adv_service_uuids adv) as [|u us IH]; intros s; simpl.
  - set_solver.
  - rewrite IH. set_solver.
Qed.
End upsert_facts.

(** ** A whole scan *)

Section scan_facts.
Variable clock : nat → string.
Implicit Types (st : Store) (k : nat) (r : DeviceRecord) (addr : string).

Lemma for_each_cons {A S} (body : S → A → Clocked S) s x l k :
  for_each body s (x :: l) k
  = for_each body (body s x k).1 l (body s x k).2.
Proof.
  simpl. unfold mbind, Clocked_bind. by destruct (body s x k).
Qed.

(** A property of the state and the clock that every round of a loop
    keeps holds when the loop ends. *)
Lemma for_each_invariant {A S} (body : S → A → Clocked S)
    (P : S → nat → Prop) l :
  (∀ s x k, x ∈ l → P s k → P (body s x k).1 (body s x k).2) →
  ∀ s k, P s k → P (for_each body s l k).1 (for_each body s l k).2.
Proof.
  induction l as [|x l IH]; intros Hbody s k HP; [done|].
  rewrite for_each_cons. apply IH.
  - intros s' y k' Hy. apply Hbody. by right.
  - apply Hbody; [left|done].
Qed.

Lemma on_detect_ticks st ev k : (k ≤ (on_detect clock st ev k).2)%nat.
Proof.
  rewrite on_detect_run. simpl.
  pose proof (upsert_base_ticks clock (detect_address ev.1) "BLE" st k). lia.
Qed.





(** *** Counting sightings *)

Lemma upsert_sightings a addr tr (assign : DeviceRecord → DeviceRecord) st k :
  (∀ r, sightings (assign r) = sightings r) →
  let base := upsert_base clock addr tr st k in
  let seen := update_last_seen clock (assign base.1) base.2 in
  sightings_at a (dict_setitem addr seen.1 st)
  = sightings_at a st + (if decide (addr = a) then 1 else 0).
Proof.
  intros Hassign base seen. unfold sightings_at.
  rewrite dict_get_setitem. destruct (decide (addr = a)) as [->|Hne].
  - rewrite decide_True by done. unfold seen, base, upsert_base. simpl.
    rewrite Hassign. by destruct (dict_get a st).
  - rewrite decide_False by done. lia.
Qed.

Lemma on_detect_sightings a st ev k :
  sightings_at a (on_detect clock st ev k).1
  = sightings_at a st + (if decide (detect_address ev.1 = a) then 1 else 0).
Proof.
  rewrite on_detect_run.
  by apply (upsert_sightings a _ "BLE" (detect_fields ev.1 ev.2)).
Qed.

Lemma classic_upsert_sightings a st item k :
  sightings_at a (classic_upsert clock st item k).1
  = sightings_at a st
    + (if decide ((unpack_item item).1.1 = a) then 1 else 0).
Proof.
  rewrite classic_upsert_run. destruct (unpack_item item) as [[a' nm] dc].
  pose (base := upsert_base clock a' "Classic" st k).
  by apply (upsert_sightings a a' "Classic"
              (λ rec, with_device_class dc
                        (with_name (py_or truthy_str nm (name base.1)) rec))).
Qed.

Lemma ble_loop_sightings a events st k :
  sightings_at a (for_each (on_detect clock) st events k).1
  = sightings_at a st + Z.of_nat (ble_events_for a events).
Proof.
  revert st k. induction events as [|ev events IH]; intros st k.
  - unfold ble_events_for. simpl. lia.
  - rewrite for_each_cons, IH, on_detect_sightings.
    unfold ble_events_for. rewrite filter_cons.
    destruct (decide (detect_address ev.1 = a)); simpl; lia.
Qed.

Lemma classic_loop_sightings a devices st k :
  sightings_at a (for_each (classic_upsert clock) st devices k).1
  = sightings_at a st + Z.of_nat (classic_items_for a devices).
Proof.
  revert st k. induction devices as [|item devices IH]; intros st k.
  - unfold classic_items_for. simpl. lia.
  - rewrite for_each_cons, IH, classic_upsert_sightings.
    unfold classic_items_for. rewrite filter_cons.
    destruct (decide ((unpack_item item).1.1 = a)); simpl; lia.
Qed.

(** *** The invariants that do not depend on the clock *)

Lemma store_wf_nil : store_wf [].
Proof. split; [apply NoDup_nil_2|done]. Qed.

Lemma upsert_wf addr tr (assign : DeviceRecord → DeviceRecord) st k :
  store_wf st →
  (∀ r, address (assign r) = address r
        ∧ sightings (assign r) = sightings r) →
  let base := upsert_base clock addr tr st k in
  let seen := update_last_seen clock (assign base.1) base.2 in
  store_wf (dict_setitem addr seen.1 st).
Proof.
  intros [Hnd Hwf] Hassign base seen. split; [by apply dict_setitem_NoDup|].
  intros a r. rewrite dict_get_setitem. case_decide as Heq; [|apply Hwf].
  intros [= <-]. subst a. unfold seen, base, upsert_base. simpl.
  destruct (Hassign (match dict_get addr st with
                     | Some rec => (rec, k)
                     | None => DeviceRecord_init clock addr tr k
                     end).1) as [-> ->].
  destruct (dict_get addr st) as [rec|] eqn:Hget; simpl.
  - destruct (Hwf _ _ Hget). split; [done|lia].
  - split; [done|lia].
Qed.

Lemma on_detect_wf st ev k :
  store_wf st → store_wf (on_detect clock st ev k).1.
Proof.
  intros Hst. rewrite on_detect_run.
  by apply (upsert_wf _ "BLE" (detect_fields ev.1 ev.2)).
Qed.

Lemma classic_upsert_wf st item k :
  store_wf st → store_wf (classic_upsert clock st item k).1.
Proof.
  intros Hst. rewrite classic_upsert_run.
  destruct (unpack_item item) as [[a nm] dc].
  pose (base := upsert_base clock a "Classic" st k).
  by apply (upsert_wf a "Classic"
              (λ rec, with_device_class dc
                        (with_name (py_or truthy_str nm (name base.1)) rec))).
Qed.

Lemma ble_loop_wf events st k :
  store_wf st → store_wf (for_each (on_detect clock) st events k).1.
Proof.
  intros Hst.
  apply (for_each_invariant (on_detect clock) (λ st _, store_wf st));
    [|done].
  intros s x k' _. apply on_detect_wf.
Qed.

Lemma classic_loop_wf devices st k :
  store_wf st → store_wf (for_each (classic_upsert clock) st devices k).1.
Proof.
  intros Hst.
  apply (for_each_invariant (classic_upsert clock) (λ st _, store_wf st));
    [|done].
  intros s x k' _. apply classic_upsert_wf.
Qed.

(** *** The scans in terms of the loops *)

Lemma scan_ble_run bleak k :
  scan_ble clock bleak k
  = for_each (on_detect clock) [] (from_option detections [] bleak) k.
Proof. by destruct bleak. Qed.

Lemma scan_classic_run bluetooth k records k' :
  scan_classic clock bluetooth k = (Ok records, k') →
  (records, k')
  = for_each (classic_upsert clock) []
      match bluetooth with
      | Some bt =>
          match inquiry bt with Ok devices => devices | Raise _ => [] end
      | None => []
      end k.
Proof.
  unfold scan_classic. destruct bluetooth as [bt|]; [|by intros [= <- <-]].
  destruct (inquiry bt) as [devices|e]; [|done].
  unfold mbind, Clocked_bind, mret, Clocked_ret.
  destruct (for_each _ _ _ _) as [recs k1]. by intros [= <- <-].
Qed.

(** The coordinator, with the copy of line 216 carried out. *)
Lemma discover_run m bleak bluetooth k :
  discover clock m bleak bluetooth k
  = let ble := for_each (on_detect clock) [] (events_processed m bleak)
                 (S k) in
    if runs_classic m then
      match scan_classic clock bluetooth ble.2 with
      | (Ok classic_records, k2) =>
          let merged :=
            for_each (merge_item clock) ble.1 classic_records k2 in
          (Ok merged.1, merged.2)
      | (Raise e, k2) => (Raise e, k2)
      end
    else (Ok ble.1, ble.2).
Proof.
  unfold discover, events_processed, mbind, Clocked_bind, mret, Clocked_ret,
    utc_now_iso.
  destruct (runs_ble m).
  - rewrite scan_ble_run.
    pose proof (ble_loop_wf (from_option detections [] bleak) [] (S k)
                  store_wf_nil) as [Hnd _].
    destruct (for_each (on_detect clock) _ _ _) as [ble k1]. simpl in *.
    rewrite dict_update_empty by done.
    destruct (runs_classic m); [|done].
    destruct (scan_classic clock bluetooth k1) as [[cls|e] k2]; [|done].
    by destruct (for_each (merge_item clock) _ _ _).
  - simpl. destruct (runs_classic m); [|done].
    destruct (scan_classic clock bluetooth (S k)) as [[cls|e] k2]; [|done].
    by destruct (for_each (merge_item clock) _ _ _).
Qed.
End scan_facts.

(** ** The merge *)

Section merge_facts.
Variable clock : nat → string.
Implicit Types (st all cls : Store) (k : nat) (r : DeviceRecord).

Lemma merge_item_run all item k :
  merge_item clock all item k
  = match dict_get item.1 all with
    | Some existing =>
        (dict_setitem item.1 (merged_record clock existing item.2 k) all, S k)
    | None => (dict_setitem item.1 item.2 all, k)
    end.
Proof. unfold merge_item. by destruct (dict_get item.1 all). Qed.

Lemma merge_item_ticks all item k : (k ≤ (merge_item clock all item k).2)%nat.
Proof.
  rewrite merge_item_run. destruct (dict_get item.1 all); simpl; lia.
Qed.

Lemma merge_loop_ticks cls all k :
  (k ≤ (for_each (merge_item clock) all cls k).2)%nat.
Proof.
  revert all k. induction cls as [|item cls IH]; intros all k; [done|].
  rewrite for_each_cons. etrans; [|apply IH]. apply merge_item_ticks.
Qed.

Lemma merge_item_get a all item k :
  dict_get a (merge_item clock all item k).1
  = if decide (a = item.1) then
      match dict_get a all with
      | Some existing => Some (merged_record clock existing item.2 k)
      | None => Some item.2
      end
    else dict_get a all.
Proof.
  rewrite merge_item_run. destruct (decide (a = item.1)) as [->|Hne].
  - destruct (dict_get item.1 all); simpl; apply dict_get_setitem_eq.
  - destruct (dict_get item.1 all); simpl; by apply dict_get_setitem_ne.
Qed.

(** What the loop of lines 223 to 230 leaves under each address. *)
Lemma merge_loop_get a cls all k :
  NoDup (dict_keys cls) →
  let merged := for_each (merge_item clock) all cls k in
  match dict_get a cls with
  | None => dict_get a merged.1 = dict_get a all
  | Some rec =>
      match dict_get a all with
      | None => dict_get a merged.1 = Some rec
      | Some existing =>
          ∃ j, (k ≤ j < merged.2)%nat
               ∧ dict_get a merged.1 = Some (merged_record clock existing rec j)
      end
  end.
Proof.
  revert all k. induction cls as [|[a' rec'] cls IH]; intros all k Hnd.
  { done. }
  unfold dict_keys in Hnd. rewrite fmap_cons in Hnd.
  apply NoDup_cons in Hnd as [Hnotin Hnd]. simpl in Hnotin.
  cbv zeta. rewrite for_each_cons.
  specialize (IH (merge_item clock all (a', rec') k).1
                 (merge_item clock all (a', rec') k).2 Hnd).
  cbv zeta in IH. rewrite merge_item_get in IH. simpl in IH.
  pose proof (merge_item_ticks all (a', rec') k) as Hk.
  pose proof (merge_loop_ticks cls (merge_item clock all (a', rec') k).1
                (merge_item clock all (a', rec') k).2) as Hk'.
  simpl. destruct (decide (a = a')) as [->|Hne].
  - apply dict_get_None in Hnotin. rewrite Hnotin in IH.
    destruct (dict_get a' all) as [existing|] eqn:Hall; [|done].
    exists k. split; [|done].
    assert ((merge_item clock all (a', rec') k).2 = S k) as Hstep.
    { rewrite merge_item_run. simpl. by rewrite Hall. }
    lia.
  - destruct (dict_get a cls) as [rec|]; [|done].
    destruct (dict_get a all) as [existing|]; [|done].
    destruct IH as (j & Hj & Hget). exists j. split; [lia|done].
Qed.



(** Merging into an empty store yields the merged store itself. *)
Lemma merge_loop_fresh cls all k :
  NoDup (dict_keys (all ++ cls)) →
  for_each (merge_item clock) all cls k = (all ++ cls, k).
Proof.
  revert all. induction cls as [|[a rec] cls IH]; intros all Hnd.
  - by rewrite app_nil_r.
  - rewrite for_each_cons, merge_item_run. simpl.
    assert (dict_get a all = None) as Hnone.
    { apply dict_get_None. unfold dict_keys in *.
      rewrite fmap_app, fmap_cons in Hnd.
      apply NoDup_app in Hnd as (_ & Hdisj & _).
      intros Hin. apply (Hdisj a Hin). left. }
    rewrite Hnone. simpl. rewrite dict_setitem_new by done.
    rewrite IH; by rewrite <-app_assoc.
Qed.
End merge_facts.

(** ** The sightings counter (C1) *)

Section sightings_facts.
Variable clock : nat → string.

(** What the counter of an address is after the BLE loop and after the
    Classic loop, both started from an empty store. *)
Lemma ble_loop_count a events k :
  let ble := (for_each (on_detect clock) [] events k).1 in
  store_wf ble ∧ sightings_at a ble = Z.of_nat (ble_events_for a events).
Proof.
  split; [apply ble_loop_wf, store_wf_nil|].
  by rewrite ble_loop_sightings.
Qed.

Lemma classic_loop_count a devices k :
  let cls := (for_each (classic_upsert clock) [] devices k).1 in
  store_wf cls ∧ sightings_at a cls = Z.of_nat (classic_items_for a devices).
Proof.
  split; [apply classic_loop_wf, store_wf_nil|].
  by rewrite classic_loop_sightings.
Qed.

Lemma sightings_at_Some a st r :
  dict_get a st = Some r → sightings_at a st = sightings r.
Proof. unfold sightings_at. by intros ->. Qed.

Lemma sightings_at_None a st : dict_get a st = None → sightings_at a st = 0.
Proof. unfold sightings_at. by intros ->. Qed.

Lemma sightings_Some_pos a st r :
  store_wf st → dict_get a st = Some r → 1 ≤ sightings r.
Proof. intros [_ Hwf] Hget. by destruct (Hwf _ _ Hget). Qed.
End sightings_facts.

(** C1, as amended.  For every address in the final record store: when only
    the BLE scan saw it, [sightings] is the number of its advertisement
    events; when only the Classic inquiry saw it, the number of its inquiry
    tuples; when both saw it, the number of its advertisement events plus
    one for the merge, whatever the number of its inquiry tuples. *)
Theorem sightings_count clock m bleak bluetooth k final k' addr rec :
  discover clock m bleak bluetooth k = (Ok final, k') →
  dict_get addr final = Some rec →
  let nb := ble_events_for addr (events_processed m bleak) in
  let nc := classic_items_for addr (items_processed m bluetooth) in
  (nc = 0%nat → sightings rec = Z.of_nat nb)
  ∧ (nb = 0%nat → sightings rec = Z.of_nat nc)
  ∧ ((0 < nb)%nat → (0 < nc)%nat → sightings rec = Z.of_nat nb + 1).
Proof.
  intros Hrun Hrec nb nc. rewrite discover_run in Hrun. cbv zeta in Hrun.
  destruct (ble_loop_count clock addr (events_processed m bleak) (S k))
    as [Hble_wf Hble]. fold nb in Hble.
  destruct (for_each (on_detect clock) [] _ _) as [ble k1]. simpl in *.
  unfold items_processed in nc.
  destruct (runs_classic m).
  - destruct (scan_classic clock bluetooth k1) as [[cls|e] k2] eqn:Hscan;
      [|done].
    apply scan_classic_run in Hscan.
    destruct (classic_loop_count clock addr
                match bluetooth with
                | Some bt =>
                    match inquiry bt with Ok ds => ds | Raise _ => [] end
                | None => []
                end k1) as [Hcls_wf Hcls].
    rewrite <-Hscan in Hcls_wf, Hcls. simpl in Hcls_wf, Hcls. fold nc in Hcls.
    pose proof (merge_loop_get clock addr cls ble k2 (proj1 Hcls_wf)) as Hm.
    cbv zeta in Hm.
    destruct (for_each (merge_item clock) ble cls k2) as [merged k3].
    injection Hrun as <- <-. simpl in Hm.
    destruct (dict_get addr cls) as [rc|] eqn:Hc.
    + pose proof (sightings_Some_pos addr cls rc Hcls_wf Hc).
      rewrite (sightings_at_Some _ _ _ Hc) in Hcls.
      destruct (dict_get addr ble) as [ex|] eqn:Hb.
      * pose proof (sightings_Some_pos addr ble ex Hble_wf Hb).
        rewrite (sightings_at_Some _ _ _ Hb) in Hble.
        destruct Hm as (j & _ & Hm). rewrite Hrec in Hm.
        injection Hm as ->. unfold merged_record. simpl. lia.
      * rewrite (sightings_at_None _ _ Hb) in Hble.
        rewrite Hrec in Hm. injection Hm as ->. lia.
    + rewrite (sightings_at_None _ _ Hc) in Hcls.
      rewrite Hrec in Hm. symmetry in Hm.
      pose proof (sightings_Some_pos addr ble rec Hble_wf Hm).
      rewrite (sightings_at_Some _ _ _ Hm) in Hble. lia.
  - injection Hrun as <- <-.
    pose proof (sightings_Some_pos addr ble rec Hble_wf Hrec).
    rewrite (sightings_at_Some _ _ _ Hrec) in Hble.
    unfold classic_items_for in nc. simpl in nc. lia.
Qed.

Lemma sightings_count_witness :
  ∃ final k' rec,
    discover example_clock ModeBoth (Some collision_session)
      (Some collision_inquiry) 0%nat = (Ok final, k')
    ∧ dict_get "AA:BB" final = Some rec
    ∧ sightings rec = 2.
Proof.
  eexists _, _, _. split; [vm_compute; reflexivity|].
  split; [vm_compute; reflexivity|].
  refine (proj2 (proj2 (sightings_count example_clock ModeBoth
                          (Some collision_session) (Some collision_inquiry)
                          0%nat _ _ "AA:BB" _ _ _)) _ _).
  - vm_compute; reflexivity.
  - vm_compute; reflexivity.
  - vm_compute; lia.
  - vm_compute; lia.
Defined.

(** C1, as stated, fails.  One advertisement event and two inquiry tuples for
    one address, hence one merge collision: the claim counts four detection
    events (three without the collision), the final record has two
    sightings. *)
Lemma sightings_count_counterexample :
  ∃ final k' rec,
    discover example_clock ModeBoth (Some collision_session)
      (Some collision_inquiry) 0%nat = (Ok final, k')
    ∧ dict_get "AA:BB" final = Some rec
    ∧ ble_events_for "AA:BB"
        (events_processed ModeBoth (Some collision_session)) = 1%nat
    ∧ classic_items_for "AA:BB"
        (items_processed ModeBoth (Some collision_inquiry)) = 2%nat
    ∧ sightings rec = 2
    ∧ sightings rec ≠ 1 + 2 + 1.
Proof.
  eexists _, _, _. split; [vm_compute; reflexivity|].
  split; [vm_compute; reflexivity|].
  split; [vm_compute; reflexivity|].
  split; [vm_compute; reflexivity|].
  split; [vm_compute; reflexivity|]. vm_compute. discriminate.
Qed.

(** ** The merge reconciler (C2) *)

Lemma on_detect_ble_made clock st ev k :
  ble_made st → ble_made (on_detect clock st ev k).1.
Proof.
  intros Hst a r. rewrite on_detect_run. cbv zeta. simpl fst.
  rewrite dict_get_setitem. case_decide as Heq; [|apply Hst].
  intros [= <-]. subst a. unfold upsert_base. simpl.
  destruct (dict_get (detect_address ev.1) st) as [rec|] eqn:Hget; simpl.
  - by apply (Hst _ _ Hget).
  - done.
Qed.

Lemma ble_loop_made clock events k :
  ble_made (for_each (on_detect clock) [] events k).1.
Proof.
  apply (for_each_invariant (on_detect clock) (λ st _, ble_made st)).
  - intros s x k' _. apply on_detect_ble_made.
  - by intros a r.
Qed.

(** C2.  In Both mode, an address of the Classic result that already has a
    record when the merge runs keeps every field of that record except
    [device_class], which is filled only if absent, and [last_seen] and
    [sightings], which register one more sighting; its transport is still
    BLE.  An address only the Classic result has is stored with the Classic
    record as it is. *)
Theorem merge_keeps_ble_record clock bleak bluetooth k ble k1
    classic_records k2 addr rec :
  scan_ble clock bleak (S k) = (ble, k1) →
  scan_classic clock bluetooth k1 = (Ok classic_records, k2) →
  dict_get addr classic_records = Some rec →
  let merged := for_each (merge_item clock) ble classic_records k2 in
  discover clock ModeBoth bleak bluetooth k = (Ok merged.1, merged.2)
  ∧ match dict_get addr ble with
    | Some existing =>
        ∃ kept j,
          dict_get addr merged.1 = Some kept
          ∧ unchanged_but_sighting existing kept
          ∧ transport kept = "BLE"
          ∧ device_class kept
            = match device_class existing with
              | Some c => Some c
              | None => device_class rec
              end
          ∧ sightings kept = sightings existing + 1
          ∧ last_seen kept = clock j ∧ (k2 ≤ j)%nat
    | None => dict_get addr merged.1 = Some rec
    end.
Proof.
  intros Hble Hcls Hrec merged. split.
  - rewrite discover_run. unfold events_processed. simpl.
    rewrite <-scan_ble_run, Hble. simpl. rewrite Hcls. done.
  - rewrite scan_ble_run in Hble.
    pose proof (ble_loop_made clock (from_option detections [] bleak) (S k))
      as Hmade.
    rewrite Hble in Hmade. simpl in Hmade.
    pose proof (scan_classic_run clock _ _ _ _ Hcls) as Hloop.
    pose proof (classic_loop_wf clock
                  match bluetooth with
                  | Some bt =>
                      match inquiry bt with Ok ds => ds | Raise _ => [] end
                  | None => []
                  end [] k1 store_wf_nil) as [Hnd _].
    rewrite <-Hloop in Hnd. simpl in Hnd.
    pose proof (merge_loop_get clock addr classic_records ble k2 Hnd) as Hm.
    cbv zeta in Hm. rewrite Hrec in Hm. fold merged in Hm.
    destruct (dict_get addr ble) as [existing|] eqn:Hex; [|done].
    destruct Hm as (j & Hj & Hget).
    destruct (Hmade _ _ Hex) as [Htr Hdc].
    exists (merged_record clock existing rec j), j.
    split; [done|]. unfold merged_record, unchanged_but_sighting. simpl.
    rewrite Hdc. simpl. split_and!; try done. lia.
Qed.

Lemma merge_keeps_ble_record_witness :
  ∃ ble k1 classic_records k2 rec kept,
    scan_ble example_clock (Some collision_session) 1%nat = (ble, k1)
    ∧ scan_classic example_clock (Some collision_inquiry) k1
      = (Ok classic_records, k2)
    ∧ dict_get "AA:BB" classic_records = Some rec
    ∧ dict_get "AA:BB"
        (for_each (merge_item example_clock) ble classic_records k2).1
      = Some kept
    ∧ transport kept = "BLE"
    ∧ device_class kept = Some 42
    ∧ sightings kept = 2.
Proof.
  pose proof (merge_keeps_ble_record example_clock (Some collision_session)
                (Some collision_inquiry) 0%nat _ _ _ _ "AA:BB" _
                ltac:(vm_compute; reflexivity) ltac:(vm_compute; reflexivity)
                ltac:(vm_compute; reflexivity)) as [_ Hmerge].
  vm_compute in Hmerge.
  destruct Hmerge as (kept & j & Hget & _ & Htr & Hdc & Hs & _).
  eexists _, _, _, _, _, kept. split; [vm_compute; reflexivity|].
  split; [vm_compute; reflexivity|]. split; [vm_compute; reflexivity|].
  split; [exact Hget|]. split; [exact Htr|]. split; [exact Hdc|exact Hs].
Defined.

(** ** One BLE event and one Classic tuple (C3, C4) *)

(** C3, as amended.  After a BLE advertisement event the record's [rssi] is
    the advertisement-level value if the event has one, and otherwise the
    device-level value, present or not: an event that supplies neither
    leaves the record without an [rssi]. *)
Theorem rssi_update clock records ev k :
  ∃ rec',
    dict_get (detect_address ev.1) (on_detect clock records ev k).1 = Some rec'
    ∧ rssi rec' = match adv_rssi ev.2 with
                  | Some v => Some v
                  | None => dev_rssi ev.1
                  end.
Proof.
  rewrite on_detect_run. cbv zeta. simpl fst.
  eexists. split; [apply dict_get_setitem_eq|]. simpl.
  by destruct (adv_rssi ev.2).
Qed.

(** C3, as stated, fails.  A record holds [rssi = -50]; the next event for
    its address carries no advertisement-level and no device-level value;
    the stored value is erased instead of kept. *)
Lemma rssi_update_counterexample :
  ∃ records rec rec',
    let ev := (example_device (Some "AA:BB") None, example_adv None []) in
    records = (scan_ble example_clock (Some collision_session) 0%nat).1
    ∧ dict_get "AA:BB" records = Some rec
    ∧ rssi rec = Some (-50)
    ∧ adv_rssi ev.2 = None ∧ dev_rssi ev.1 = None
    ∧ dict_get "AA:BB" (on_detect example_clock records ev 3%nat).1 = Some rec'
    ∧ rssi rec' = None
    ∧ rssi rec' ≠ rssi rec.
Proof.
  eexists _, _, _. cbv zeta. split; [reflexivity|].
  split; [vm_compute; reflexivity|]. split; [reflexivity|].
  split; [reflexivity|]. split; [reflexivity|].
  split; [vm_compute; reflexivity|]. split; [reflexivity|]. discriminate.
Qed.

(** C4, as amended.  When the address of an inquiry tuple already has a
    record, the record's name is set from the tuple whenever the tuple has a
    non-empty name, whether or not the record has one; the record's name is
    kept only when the tuple's name is absent or empty. *)
Theorem classic_name_update clock records item k rec :
  dict_get (unpack_item item).1.1 records = Some rec →
  ∃ rec',
    dict_get (unpack_item item).1.1 (classic_upsert clock records item k).1
    = Some rec'
    ∧ name rec' = if truthy_str (unpack_item item).1.2
                  then (unpack_item item).1.2 else name rec.
Proof.
  intros Hget. rewrite classic_upsert_run.
  destruct (unpack_item item) as [[addr nm] dc]. simpl in *.
  eexists. split; [apply dict_get_setitem_eq|].
  unfold upsert_base. rewrite Hget. done.
Qed.

Lemma classic_name_update_witness :
  ∃ records rec rec',
    let item := Item3 "AA:BB" None (Some 42) in
    records = (classic_upsert example_clock []
                 (Item3 "AA:BB" (Some "Phone") None) 0%nat).1
    ∧ dict_get "AA:BB" records = Some rec
    ∧ dict_get "AA:BB" (classic_upsert example_clock records item 2%nat).1
      = Some rec'
    ∧ name rec' = Some "Phone".
Proof.
  pose proof (classic_name_update example_clock
                (classic_upsert example_clock []
                   (Item3 "AA:BB" (Some "Phone") None) 0%nat).1
                (Item3 "AA:BB" None (Some 42)) 2%nat _
                ltac:(vm_compute; reflexivity)) as (rec' & Hget & Hname).
  eexists _, _, rec'. cbv zeta. split; [reflexivity|].
  split; [vm_compute; reflexivity|]. split; [exact Hget|exact Hname].
Defined.

(** C4, as stated, fails.  Two tuples of one inquiry for one address, named
    "Phone" and then "Handset": the second name overwrites the first. *)
Lemma classic_name_update_counterexample :
  ∃ records rec rec',
    let item := Item3 "AA:BB" (Some "Handset") (Some 42) in
    records = (classic_upsert example_clock []
                 (Item3 "AA:BB" (Some "Phone") (Some 42)) 0%nat).1
    ∧ dict_get "AA:BB" records = Some rec
    ∧ name rec = Some "Phone"
    ∧ dict_get "AA:BB" (classic_upsert example_clock records item 2%nat).1
      = Some rec'
    ∧ name rec' = Some "Handset"
    ∧ name rec' ≠ name rec.
Proof.
  eexists _, _, _. cbv zeta. split; [reflexivity|].
  split; [vm_compute; reflexivity|]. split; [reflexivity|].
  split; [vm_compute; reflexivity|]. split; [reflexivity|]. discriminate.
Qed.

(** ** Devices without an identity (C10) *)

Section same_address.
Variable clock : nat → string.
Variable a : string.

(** A field of the record of [a], followed through a scan: it starts from
    its value in a fresh record, each event for [a] transforms it, and the
    events for other addresses leave it alone. *)
Lemma ble_loop_observe {X} (f : DeviceRecord → X) (x0 : X)
    (g : BLEDevice * AdvertisementData → X → X) events :
  (∀ tr k, f (DeviceRecord_init clock a tr k).1 = x0) →
  (∀ ev r k,
     f (update_last_seen clock (detect_fields ev.1 ev.2 r) k).1 = g ev (f r)) →
  ∀ st k,
    from_option f x0 (dict_get a (for_each (on_detect clock) st events k).1)
    = foldl (λ x ev, g ev x) (from_option f x0 (dict_get a st))
        (filter (λ ev, detect_address ev.1 = a) events).
Proof.
  intros Hinit Hstep. induction events as [|ev events IH]; intros st k;
    [done|].
  rewrite for_each_cons, IH, filter_cons.
  rewrite on_detect_run. cbv zeta. cbn [fst].
  destruct (decide (detect_address ev.1 = a)) as [Hev|Hev].
  - cbn [foldl]. f_equal.
    rewrite Hev, dict_get_setitem_eq. cbn [from_option]. rewrite Hstep.
    unfold upsert_base. destruct (dict_get a st); cbn [from_option fst];
      [done|].
    by rewrite (Hinit "BLE" k).
  - by rewrite dict_get_setitem_ne.
Qed.

End same_address.

Lemma identity_less_address device :
  identity_less device → detect_address device = "UNKNOWN".
Proof. intros [Ha Hm]. unfold detect_address. by rewrite Ha, Hm. Qed.

(** C10.  A BLE event whose device has neither an [address] nor a
    [mac_address] is upserted under the key "UNKNOWN".  So whenever a scan
    has such an event, its store has one record "UNKNOWN", which all the
    events resolved to that key share, every event without an identity
    among them: its counter counts them all, and its UUID set, its data
    maps, its name and its last-write-wins fields are accumulated over them
    all, whichever devices sent them. *)
Theorem unknown_devices_share_one_record clock events err k ev0 :
  ev0 ∈ events → identity_less ev0.1 →
  let unknown := filter (λ ev, detect_address ev.1 = "UNKNOWN") events in
  let store :=
    (scan_ble clock (Some {| detections := events; scan_error := err |}) k).1
  in
  detect_address ev0.1 = "UNKNOWN"
  ∧ (∀ ev, ev ∈ events → identity_less ev.1 → ev ∈ unknown)
  ∧ NoDup (dict_keys store)
  ∧ ∃ rec,
      dict_get "UNKNOWN" store = Some rec
      ∧ address rec = "UNKNOWN"
      ∧ sightings rec = Z.of_nat (length unknown)
      ∧ service_uuids rec
        = foldl (λ s ev, s ∪ list_to_set (adv_service_uuids ev.2)) ∅ unknown
      ∧ service_data rec
        = foldl (λ d ev,
                   foldl (λ d ub, dict_setitem ub.1 (bytes_hex ub.2) d) d
                         (adv_service_data ev.2)) [] unknown
      ∧ manufacturer_data rec
        = foldl (λ d ev,
                   foldl (λ d cb, dict_setitem (manufacturer_key cb.1)
                                    (bytes_hex cb.2) d) d
                         (adv_manufacturer_data ev.2)) [] unknown
      ∧ name rec
        = foldl (λ n ev, py_or truthy_str (dev_name ev.1)
                           (py_or truthy_str (local_name ev.2) n)) None unknown
      ∧ tx_power rec = foldl (λ _ ev, adv_tx_power ev.2) None unknown.
Proof.
  intros Hin Hless unknown store.
  assert (∀ ev, ev ∈ events → identity_less ev.1 → ev ∈ unknown) as Hall.
  { intros ev Hev Hid. apply list_elem_of_filter.
    split; [by apply identity_less_address|done]. }
  split; [by apply identity_less_address|]. split; [exact Hall|].
  pose proof (ble_loop_wf clock events [] k store_wf_nil) as [Hnd Hwf].
  split; [exact Hnd|].
  pose proof (ble_loop_sightings clock "UNKNOWN" events [] k) as Hcount.
  fold (ble_events_for "UNKNOWN" events) in Hcount.
  assert (0 < length unknown)%nat as Hpos.
  { destruct unknown eqn:Hu; [|simpl; lia].
    specialize (Hall ev0 Hin Hless). by apply elem_of_nil in Hall. }
  destruct (dict_get "UNKNOWN" store) as [rec|] eqn:Hget.
  2:{ unfold store in Hget. simpl in Hget.
      rewrite (sightings_at_None _ _ Hget) in Hcount.
      unfold ble_events_for in Hcount. fold unknown in Hcount.
      change (sightings_at "UNKNOWN" []) with 0 in Hcount. lia. }
  unfold store in Hget. simpl in Hget.
  exists rec. split; [done|].
  destruct (Hwf _ _ Hget) as [Haddr _].
  split; [done|]. split.
  { rewrite (sightings_at_Some _ _ _ Hget) in Hcount. rewrite Hcount.
    change (sightings_at "UNKNOWN" []) with 0. unfold ble_events_for.
    fold unknown. lia. }
  split.
  { pose proof (ble_loop_observe clock "UNKNOWN" service_uuids ∅
                  (λ ev s, s ∪ list_to_set (adv_service_uuids ev.2)) events
                  ltac:(done)
                  (λ ev r k', detect_fields_uuids ev.1 ev.2 r) [] k)
      as Hobs.
    by rewrite Hget in Hobs. }
  split.
  { pose proof (ble_loop_observe clock "UNKNOWN" service_data []
                  (λ ev d, foldl (λ d ub, dict_setitem ub.1 (bytes_hex ub.2) d)
                             d (adv_service_data ev.2)) events
                  ltac:(done) ltac:(done) [] k) as Hobs.
    by rewrite Hget in Hobs. }
  split.
  { pose proof (ble_loop_observe clock "UNKNOWN" manufacturer_data []
                  (λ ev d, foldl (λ d cb, dict_setitem (manufacturer_key cb.1)
                                            (bytes_hex cb.2) d)
                             d (adv_manufacturer_data ev.2)) events
                  ltac:(done) ltac:(done) [] k) as Hobs.
    by rewrite Hget in Hobs. }
  split.
  { pose proof (ble_loop_observe clock "UNKNOWN" name None
                  (λ ev n, py_or truthy_str (dev_name ev.1)
                             (py_or truthy_str (local_name ev.2) n)) events
                  ltac:(done) ltac:(done) [] k) as Hobs.
    by rewrite Hget in Hobs. }
  pose proof (ble_loop_observe clock "UNKNOWN" tx_power None
                (λ ev _, adv_tx_power ev.2) events
                ltac:(done) ltac:(done) [] k) as Hobs.
  by rewrite Hget in Hobs.
Qed.

Lemma unknown_devices_share_one_record_witness :
  let ev0 := (example_device None (Some "Band"), example_adv (Some (-70)) ["180d"])
  in
  ev0 ∈ anonymous_events
  ∧ identity_less ev0.1
  ∧ ∃ rec,
      dict_get "UNKNOWN"
        (scan_ble example_clock
           (Some {| detections := anonymous_events; scan_error := None |})
           0%nat).1 = Some rec
      ∧ sightings rec = 2
      ∧ service_uuids rec = {["180f"; "180d"]}
      ∧ name rec = Some "Band".
Proof.
  intros ev0.
  assert (ev0 ∈ anonymous_events) as Hin.
  { unfold anonymous_events. do 2 right. left. }
  assert (identity_less ev0.1) as Hless by done.
  destruct (unknown_devices_share_one_record example_clock anonymous_events
              None 0%nat ev0 Hin Hless)
    as (_ & _ & _ & rec & Hrec & _ & Hs & Hu & _ & _ & Hname & _).
  split; [exact Hin|]. split; [exact Hless|]. exists rec.
  split; [exact Hrec|]. split; [exact Hs|].
  split; [rewrite Hu; vm_compute; reflexivity|exact Hname].
Defined.

(** ** The invariants of the record store (C5) *)






Lemma example_clock_monotone : clock_monotone example_clock.
Proof.
  assert (Forall (λ a, Forall (λ b, (a ≤ b)%nat →
                                    String.le (example_clock a) (example_clock b))
                          (seq 0 60)) (seq 0 60)) as Htable.
  { refine (bool_decide_unpack _ _). vm_compute. exact I. }
  assert (∀ i, example_clock i = example_clock (i `min` 59)) as Hmin.
  { intros i. unfold example_clock. by rewrite <-Nat.min_assoc, Nat.min_id. }
  intros i j Hij. rewrite (Hmin i), (Hmin j).
  rewrite Forall_forall in Htable.
  specialize (Htable (i `min` 59)%nat). rewrite Forall_forall in Htable.
  apply Htable.
  - apply elem_of_seq. lia.
  - apply elem_of_seq. lia.
  - lia.
Qed.


(** ** The serializer (C6) *)

Lemma row_member_service_uuids r :
  row_member "service_uuids" r
  = Some (json_opt json_uuids (row_service_uuids r)).
Proof. reflexivity. Qed.

Lemma row_member_service_data r :
  row_member "service_data" r
  = Some (json_opt json_service_data (row_service_data r)).
Proof. reflexivity. Qed.

Lemma row_member_manufacturer_data r :
  row_member "manufacturer_data" r
  = Some (json_opt json_manufacturer_data (row_manufacturer_data r)).
Proof. reflexivity. Qed.

Lemma sorted_list_spec (s : gset string) :
  Sorted String.le (sorted_list s)
  ∧ NoDup (sorted_list s)
  ∧ (∀ u, u ∈ sorted_list s ↔ u ∈ s)
  ∧ (sorted_list s = [] ↔ s = ∅).
Proof.
  unfold sorted_list.
  pose proof (merge_sort_Permutation String.le (elements s)) as Hperm.
  split_and!.
  - apply (Sorted_merge_sort String.le).
  - rewrite Hperm. apply NoDup_elements.
  - intros u. rewrite Hperm. apply elem_of_elements.
  - split.
    + intros Hnil. rewrite Hnil in Hperm. symmetry in Hperm.
      apply Permutation_nil_r in Hperm. by apply elements_empty_inv, leibniz_equiv in Hperm.
    + intros ->. by rewrite elements_empty.
Qed.

Lemma dict_truthy_false {K V} (d : list (K * V)) :
  dict_truthy d = false ↔ d = [].
Proof. by destruct d. Qed.

(** C6.  In the row of a record each of the three composite fields is the
    absence marker exactly when the field is empty, and so is never an
    empty container; a non-empty [service_uuids] is rendered as the list of
    its elements in ascending order without duplicates, whatever the order
    in which the UUIDs arrived. *)
Theorem composite_fields_serialized (r : DeviceRecord) :
  (service_uuids r = ∅ ↔ row_service_uuids (to_row r) = None)
  ∧ (service_data r = [] ↔ row_service_data (to_row r) = None)
  ∧ (manufacturer_data r = [] ↔ row_manufacturer_data (to_row r) = None)
  ∧ (service_uuids r = ∅ ↔ row_member "service_uuids" (to_row r) = Some JNull)
  ∧ (service_data r = [] ↔ row_member "service_data" (to_row r) = Some JNull)
  ∧ (manufacturer_data r = []
     ↔ row_member "manufacturer_data" (to_row r) = Some JNull)
  ∧ row_member "service_uuids" (to_row r) ≠ Some (JArr [])
  ∧ row_member "service_data" (to_row r) ≠ Some (JObj [])
  ∧ row_member "manufacturer_data" (to_row r) ≠ Some (JObj [])
  ∧ (∀ l, row_service_uuids (to_row r) = Some l →
       row_member "service_uuids" (to_row r) = Some (JArr (JStr <$> l))
       ∧ Sorted String.le l ∧ NoDup l
       ∧ ∀ u, u ∈ l ↔ u ∈ service_uuids r)
  ∧ (∀ device adv adv',
       (∀ u, u ∈ adv_service_uuids adv ↔ u ∈ adv_service_uuids adv') →
       row_service_uuids (to_row (detect_fields device adv r))
       = row_service_uuids (to_row (detect_fields device adv' r))).
Proof.
  rewrite row_member_service_uuids, row_member_service_data,
    row_member_manufacturer_data.
  destruct (sorted_list_spec (service_uuids r))
    as (Hsorted & Hnodup & Hmem & Hnil).
  unfold to_row; cbn [row_service_uuids row_service_data
                      row_manufacturer_data].
  split_and!.
  - by destruct (decide (service_uuids r = ∅)).
  - by destruct (service_data r).
  - by destruct (manufacturer_data r).
  - destruct (decide (service_uuids r = ∅)); simpl; [done|].
    split; [done|]. unfold json_uuids. by intros [=].
  - by destruct (service_data r).
  - by destruct (manufacturer_data r).
  - destruct (decide (service_uuids r = ∅)) as [|Hne]; simpl; [done|].
    unfold json_uuids. intros [= Heq%fmap_nil_inv]. by apply Hne, Hnil.
  - by destruct (service_data r).
  - by destruct (manufacturer_data r).
  - intros l. destruct (decide (service_uuids r = ∅)); [done|].
    by intros [= <-].
  - intros device adv adv' Hsame.
    assert (service_uuids (detect_fields device adv r)
            = service_uuids (detect_fields device adv' r)) as ->; [|done].
    rewrite !detect_fields_uuids. set_solver.
Qed.

Lemma composite_fields_serialized_witness :
  ∃ rec,
    dict_get "AA:BB"
      (scan_ble example_clock (Some collision_session) 0%nat).1 = Some rec
    ∧ row_service_uuids (to_row rec) = Some ["180a"; "180f"]
    ∧ row_service_uuids
        (to_row (detect_fields (example_device None None)
                   (example_adv None ["2a"; "1b"; "2a"]) rec))
      = row_service_uuids
          (to_row (detect_fields (example_device None None)
                     (example_adv None ["1b"; "2a"]) rec)).
Proof.
  eexists. split; [vm_compute; reflexivity|].
  split; [vm_compute; reflexivity|].
  refine (proj2 (proj2 (proj2 (proj2 (proj2 (proj2 (proj2 (proj2 (proj2 (proj2
            (composite_fields_serialized _)))))))))) _ _ _ _).
  intros u. cbn [adv_service_uuids example_adv].
  rewrite !elem_of_cons. tauto.
Defined.

(** ** Unavailable capabilities (C8) *)

Lemma scan_classic_wf clock bluetooth k records k' :
  scan_classic clock bluetooth k = (Ok records, k') → store_wf records.
Proof.
  intros Hscan%scan_classic_run.
  pose proof (classic_loop_wf clock
                match bluetooth with
                | Some bt =>
                    match inquiry bt with Ok ds => ds | Raise _ => [] end
                | None => []
                end [] k store_wf_nil) as Hwf.
  by rewrite <-Hscan in Hwf.
Qed.

(** C8.  An adapter whose backend failed to import returns an empty result
    and does not raise; in Both mode the run then carries on with the
    records of the other adapter, and in every mode in which the other
    adapter does not raise the output files are written. *)
Theorem capability_unavailable clock :
  (∀ k, scan_ble clock None k = ([], k))
  ∧ (∀ k, scan_classic clock None k = (Ok [], k))
  ∧ (∀ bluetooth k classic_records k',
       scan_classic clock bluetooth (S k) = (Ok classic_records, k') →
       discover clock ModeBoth None bluetooth k = (Ok classic_records, k'))
  ∧ (∀ bleak k,
       discover clock ModeBoth bleak None k
       = (Ok (scan_ble clock bleak (S k)).1, (scan_ble clock bleak (S k)).2))
  ∧ (∀ bluetooth k, discover clock ModeBle None bluetooth k = (Ok [], S k))
  ∧ (∀ bleak k, discover clock ModeClassic bleak None k = (Ok [], S k))
  ∧ (∀ args bleak now k,
       ∃ all_records k',
         main_async clock args bleak None now k
         = (Ok (write_outputs args (strftime now) all_records), k')).
Proof.
  split_and!; try done.
  - intros bluetooth k cls k' Hscan. rewrite discover_run. simpl.
    rewrite Hscan. rewrite merge_loop_fresh; [done|].
    by destruct (scan_classic_wf _ _ _ _ _ Hscan).
  - intros bleak k. rewrite discover_run. unfold events_processed. simpl.
    by rewrite <-scan_ble_run.
  - intros args bleak now k. unfold main_async, mbind, Clocked_bind.
    rewrite discover_run. cbv zeta.
    destruct (for_each (on_detect clock) [] _ _) as [ble k1].
    destruct (runs_classic (mode args)); simpl; eauto.
Qed.

(** ** The default output file (C9) *)










(** ** JSON text read back (C7) *)

Section json_round_trip.
Implicit Types (s rest : string) (l : list string) (fuel : nat).













End json_round_trip.





(** ** The scenarios of the specification *)

(** Scenario A: two records; "AA:BB" has two sightings, the later signal
    strength and the name of its first event; "CC:DD" has one sighting. *)
Example scenario_A_records :
  (λ ar : string * DeviceRecord,
     (ar.1, sightings ar.2, rssi ar.2, name ar.2))
    <$> (scan_ble example_clock (Some scenario_A) 0%nat).1
  = [ ("AA:BB", 2, Some (-45), Some "X"); ("CC:DD", 1, None, Some "Y") ].
Proof. vm_compute. reflexivity. Qed.

(** Scenario B: without class lookup both records have no device class. *)
Example scenario_B_records :
  ∃ records k,
    scan_classic example_clock (Some scenario_B) 0%nat = (Ok records, k)
    ∧ (λ ar : string * DeviceRecord,
         (ar.1, transport ar.2, name ar.2, device_class ar.2)) <$> records
      = [ ("11:22", "Classic", Some "Phone", None);
          ("33:44", "Classic", None, None) ].
Proof. eexists _, _. split; vm_compute; reflexivity. Qed.

(** A failure of the inquiry itself, other than the [TypeError] of an older
    provider, is not caught: it leaves [scan_classic] and [main_async]. *)
Lemma inquiry_error_propagates clock m bleak bt what k :
  runs_classic m = true →
  discover_devices_class bt = Raise (Exception what) →
  ∃ k', discover clock m bleak (Some bt) k = (Raise (Exception what), k').
Proof.
  intros Hm Hraise. rewrite discover_run. cbv zeta. rewrite Hm.
  unfold scan_classic, inquiry. rewrite Hraise. simpl. eauto.
Qed.

(** * Further properties of the adapters, the coordinator and the outputs *)

(** ** More on dictionaries *)

Section pydict_more.
Context {K V : Type} `{EqDecision K}.
Implicit Types (k : K) (v : V) (d other : list (K * V)).

Lemma dict_get_is_Some k d : is_Some (dict_get k d) ↔ k ∈ dict_keys d.
Proof.
  destruct (dict_get k d) as [v|] eqn:Hget.
  - split; [intros _|eauto].
    destruct (decide (k ∈ dict_keys d)) as [|Hnot]; [done|].
    apply dict_get_None in Hnot. congruence.
  - split; [by intros [? ?]|]. intros Hin. by apply dict_get_None in Hget.
Qed.

Lemma dict_keys_setitem_in k v d :
  dict_keys (dict_setitem k v d)
  = if decide (k ∈ dict_keys d) then dict_keys d else dict_keys d ++ [k].
Proof.
  rewrite dict_keys_setitem. destruct (dict_get k d) as [x|] eqn:Hget.
  - rewrite decide_True; [done|]. apply dict_get_is_Some. eauto.
  - rewrite decide_False; [done|]. by apply dict_get_None.
Qed.

Lemma dict_get_app k d other :
  dict_get k (d ++ other)
  = match dict_get k d with Some v => Some v | None => dict_get k other end.
Proof.
  induction d as [|[k' v'] d IH]; simpl; [done|].
  by destruct (decide (k = k')).
Qed.

(** After [d.update(other)] a key of [other] has its last value in [other],
    and any other key the value it had. *)
Lemma dict_get_update k d other :
  dict_get k (dict_update d other)
  = match dict_get k (reverse other) with
    | Some v => Some v
    | None => dict_get k d
    end.
Proof.
  unfold dict_update. revert d.
  induction other as [|[k' v'] other IH]; intros d; [done|].
  simpl. rewrite IH, reverse_cons, dict_get_app, dict_get_setitem. simpl.
  destruct (dict_get k (reverse other)); [done|].
  by destruct (decide (k = k')).
Qed.

Lemma dict_get_reverse k d :
  NoDup (dict_keys d) → dict_get k (reverse d) = dict_get k d.
Proof.
  intros Hnd. destruct (dict_get k d) as [v|] eqn:Hget.
  - apply dict_elem_of_get.
    + unfold dict_keys in *. by rewrite fmap_reverse, reverse_Permutation.
    + apply elem_of_reverse.
      clear Hnd. induction d as [|[k' v'] d IH]; simpl in *; [done|].
      destruct (decide (k = k')) as [->|]; [injection Hget as ->; left|].
      right. by apply IH.
  - apply dict_get_None. apply dict_get_None in Hget.
    unfold dict_keys in *. rewrite fmap_reverse. by rewrite elem_of_reverse.
Qed.

Lemma dict_setitem_id k v d : dict_get k d = Some v → dict_setitem k v d = d.
Proof.
  induction d as [|[k' v'] d IH]; simpl; [done|].
  destruct (decide (k = k')) as [->|]; [by intros [= ->]|].
  intros Hget. by rewrite IH.
Qed.
End pydict_more.

(** ** The order of the records *)

Section order_facts.
Variable clock : nat → string.
Implicit Types (st : Store) (k : nat).

Lemma on_detect_keys st ev k :
  dict_keys (on_detect clock st ev k).1
  = if decide (detect_address ev.1 ∈ dict_keys st) then dict_keys st
    else dict_keys st ++ [detect_address ev.1].
Proof. rewrite on_detect_run. apply dict_keys_setitem_in. Qed.

Lemma classic_upsert_keys st item k :
  dict_keys (classic_upsert clock st item k).1
  = if decide (item_address item ∈ dict_keys st) then dict_keys st
    else dict_keys st ++ [item_address item].
Proof.
  rewrite classic_upsert_run. unfold item_address.
  destruct (unpack_item item) as [[a nm] dc]. apply dict_keys_setitem_in.
Qed.

Lemma merge_item_keys st (item : string * DeviceRecord) k :
  dict_keys (merge_item clock st item k).1
  = if decide (item.1 ∈ dict_keys st) then dict_keys st
    else dict_keys st ++ [item.1].
Proof.
  rewrite merge_item_run.
  destruct (dict_get item.1 st) as [existing|] eqn:Hget; simpl;
    rewrite dict_keys_setitem_in; done.
Qed.

(** The keys a loop of upserts leaves: the keys it started with, then the
    new addresses in the order of their first occurrences. *)
Lemma loop_keys {A} (body : Store → A → Clocked Store) (addr_of : A → string) :
  (∀ st x k,
     dict_keys (body st x k).1
     = if decide (addr_of x ∈ dict_keys st) then dict_keys st
       else dict_keys st ++ [addr_of x]) →
  ∀ l st k,
    dict_keys (for_each body st l k).1
    = foldl (λ acc a, if decide (a ∈ acc) then acc else acc ++ [a])
        (dict_keys st) (addr_of <$> l).
Proof.
  intros Hbody l. induction l as [|x l IH]; intros st k; [done|].
  rewrite for_each_cons, IH, Hbody. done.
Qed.
End order_facts.

Lemma first_occurrences_prefix (acc l : list string) :
  acc `prefix_of`
  foldl (λ acc a, if decide (a ∈ acc) then acc else acc ++ [a]) acc l.
Proof.
  revert acc. induction l as [|x l IH]; intros acc; simpl; [done|].
  destruct (decide (x ∈ acc)); [apply IH|].
  eapply prefix_app_l, IH.
Qed.

Lemma first_occurrences_from (acc l : list string) :
  NoDup acc →
  let keys := foldl (λ acc a, if decide (a ∈ acc) then acc else acc ++ [a])
                acc l in
  NoDup keys ∧ acc `prefix_of` keys ∧ ∀ a, a ∈ keys ↔ a ∈ acc ∨ a ∈ l.
Proof.
  revert acc. induction l as [|x l IH]; intros acc Hnd; simpl.
  - split_and!; [done|done|]. intros a. rewrite elem_of_nil. tauto.
  - destruct (decide (x ∈ acc)) as [Hin|Hnot].
    + destruct (IH acc Hnd) as (? & ? & Hmem). split_and!; [done..|].
      intros a. rewrite Hmem, elem_of_cons. naive_solver.
    + assert (NoDup (acc ++ [x])) as Hnd'.
      { apply NoDup_app. split_and!; [done| |apply NoDup_singleton].
        intros y Hy ->%list_elem_of_singleton. done. }
      destruct (IH (acc ++ [x]) Hnd') as (? & Hpre & Hmem).
      split_and!; [done| |].
      * by eapply prefix_app_l.
      * intros a. rewrite Hmem, elem_of_app, list_elem_of_singleton,
          elem_of_cons. naive_solver.
Qed.

(** X1.  No operation on the record store moves a record: an upsert of
    either adapter and a step of the merge leave the addresses in their
    order, and add at most the address they are for, at the end. *)
Theorem store_order_stable clock (st : Store) k :
  (∀ ev,
     dict_keys (on_detect clock st ev k).1
     = if decide (detect_address ev.1 ∈ dict_keys st) then dict_keys st
       else dict_keys st ++ [detect_address ev.1])
  ∧ (∀ item,
       dict_keys (classic_upsert clock st item k).1
       = if decide (item_address item ∈ dict_keys st) then dict_keys st
         else dict_keys st ++ [item_address item])
  ∧ (∀ item : string * DeviceRecord,
       dict_keys (merge_item clock st item k).1
       = if decide (item.1 ∈ dict_keys st) then dict_keys st
         else dict_keys st ++ [item.1])
  ∧ (∀ events k0,
       dict_keys st
       `prefix_of` dict_keys (for_each (on_detect clock) st events k0).1)
  ∧ (∀ devices k0,
       dict_keys st
       `prefix_of` dict_keys (for_each (classic_upsert clock) st devices k0).1)
  ∧ (∀ (classic_records : Store) k0,
       dict_keys st
       `prefix_of`
       dict_keys (for_each (merge_item clock) st classic_records k0).1).
Proof.
  assert (∀ {A} (body : Store → A → Clocked Store) (addr_of : A → string),
            (∀ st x k,
               dict_keys (body st x k).1
               = if decide (addr_of x ∈ dict_keys st) then dict_keys st
                 else dict_keys st ++ [addr_of x]) →
            ∀ l k0, dict_keys st `prefix_of` dict_keys (for_each body st l k0).1)
    as Hloop.
  { intros A body addr_of Hbody l k0.
    rewrite (loop_keys body addr_of Hbody).
    apply first_occurrences_prefix. }
  split_and!.
  - intros ev. apply on_detect_keys.
  - intros item. apply classic_upsert_keys.
  - intros item. apply merge_item_keys.
  - intros events k0.
    apply (Hloop _ (on_detect clock) (λ ev, detect_address ev.1)).
    intros. apply on_detect_keys.
  - intros devices k0. apply (Hloop _ (classic_upsert clock) item_address).
    intros. apply classic_upsert_keys.
  - intros cls k0. apply (Hloop _ (merge_item clock) fst).
    intros. apply merge_item_keys.
Qed.

(** ** Fields followed through a scan *)

Section observe_facts.
Variable clock : nat → string.
Implicit Types (st : Store) (k : nat) (r : DeviceRecord).

(** A field of the record of [a], followed through a loop of upserts of
    transport [tr]: it starts from its value in a fresh record, each item
    for [a] transforms it, and the other items leave it alone. *)
Lemma upsert_loop_observe {A X} (addr_of : A → string) (tr : string)
    (assign : A → DeviceRecord → DeviceRecord)
    (body : Store → A → Clocked Store)
    (f : DeviceRecord → X) (x0 : X) (g : A → X → X) (a : string) :
  (∀ st x k,
     body st x k
     = let base := upsert_base clock (addr_of x) tr st k in
       let seen := update_last_seen clock (assign x base.1) base.2 in
       (dict_setitem (addr_of x) seen.1 st, seen.2)) →
  (∀ k, f (DeviceRecord_init clock a tr k).1 = x0) →
  (∀ x r k, f (update_last_seen clock (assign x r) k).1 = g x (f r)) →
  ∀ l st k,
    from_option f x0 (dict_get a (for_each body st l k).1)
    = foldl (λ y x, g x y) (from_option f x0 (dict_get a st))
        (filter (λ x, addr_of x = a) l).
Proof.
  intros Hbody Hinit Hstep l. induction l as [|x l IH]; intros st k; [done|].
  rewrite for_each_cons, IH, filter_cons, Hbody. cbv zeta. cbn [fst].
  destruct (decide (addr_of x = a)) as [Hx|Hx].
  - cbn [foldl]. f_equal.
    rewrite Hx, dict_get_setitem_eq. cbn [from_option]. rewrite Hstep.
    unfold upsert_base. destruct (dict_get a st); cbn [from_option fst];
      [done|].
    by rewrite Hinit.
  - by rewrite dict_get_setitem_ne.
Qed.

Lemma classic_upsert_shape st item k :
  classic_upsert clock st item k
  = let base := upsert_base clock (item_address item) "Classic" st k in
    let seen := update_last_seen clock (classic_fields item base.1) base.2 in
    (dict_setitem (item_address item) seen.1 st, seen.2).
Proof.
  rewrite classic_upsert_run. unfold item_address, classic_fields, item_class.
  by destruct (unpack_item item) as [[a nm] dc].
Qed.

Lemma ble_observe {X} (f : DeviceRecord → X) (x0 : X)
    (g : BLEDevice * AdvertisementData → X → X) (a : string) :
  (∀ k, f (DeviceRecord_init clock a "BLE" k).1 = x0) →
  (∀ ev r k,
     f (update_last_seen clock (detect_fields ev.1 ev.2 r) k).1 = g ev (f r)) →
  ∀ events st k,
    from_option f x0 (dict_get a (for_each (on_detect clock) st events k).1)
    = foldl (λ y ev, g ev y) (from_option f x0 (dict_get a st))
        (events_for a events).
Proof.
  intros Hinit Hstep.
  apply (upsert_loop_observe (λ ev, detect_address ev.1) "BLE"
           (λ ev, detect_fields ev.1 ev.2) (on_detect clock)); [|done..].
  intros st ev k. apply on_detect_run.
Qed.

Lemma classic_observe {X} (f : DeviceRecord → X) (x0 : X)
    (g : InquiryItem → X → X) (a : string) :
  (∀ k, f (DeviceRecord_init clock a "Classic" k).1 = x0) →
  (∀ item r k,
     f (update_last_seen clock (classic_fields item r) k).1 = g item (f r)) →
  ∀ devices st k,
    from_option f x0
      (dict_get a (for_each (classic_upsert clock) st devices k).1)
    = foldl (λ y item, g item y) (from_option f x0 (dict_get a st))
        (items_for a devices).
Proof.
  intros Hinit Hstep.
  apply (upsert_loop_observe item_address "Classic" classic_fields
           (classic_upsert clock)); [|done..].
  intros st item k. apply classic_upsert_shape.
Qed.
End observe_facts.

(** A field every item overwrites is that of the last item. *)
Lemma foldl_overwrite {A X} (h : A → X) (x0 : X) (l : list A) :
  foldl (λ _ x, h x) x0 l = from_option h x0 (last l).
Proof.
  revert x0. induction l as [|x l IH]; intros x0; [done|].
  simpl. rewrite IH, last_cons. by destruct (last l).
Qed.

(** A field no item touches keeps its value. *)
Lemma foldl_keep {A X} (x0 : X) (l : list A) : foldl (λ y _, y) x0 l = x0.
Proof. revert x0. induction l as [|x l IH]; intros x0; [done|]. apply IH. Qed.

(** A name that every item may replace by a name of its own is the latest
    name an item had, or the name before them all. *)
Lemma foldl_names {A} (h : A → option string) (n0 : option string)
    (l : list A) :
  foldl (λ n x, py_or truthy_str (h x) n) n0 l
  = default n0 (last (filter (λ n, truthy_str n = true) (h <$> l))).
Proof.
  revert n0. induction l as [|x l IH]; intros n0; [done|].
  cbn [foldl]. rewrite IH, fmap_cons, filter_cons. unfold py_or.
  destruct (truthy_str (h x)) eqn:Hx.
  - rewrite decide_True by done. rewrite last_cons.
    by destruct (last (filter _ (h <$> l))).
  - rewrite decide_False by (by intros ?). done.
Qed.

(** ** The records a scan leaves *)

Lemma detect_address_ne device : detect_address device ≠ "".
Proof.
  unfold detect_address, py_or.
  destruct (dev_address device) as [[|c s]|];
    destruct (dev_mac_address device) as [[|c' s']|]; done.
Qed.

Lemma first_occurrences_spec (l : list string) :
  NoDup (first_occurrences l) ∧ ∀ a, a ∈ first_occurrences l ↔ a ∈ l.
Proof.
  destruct (first_occurrences_from [] l (NoDup_nil_2 (A:=string))) as (Hnd & _ & Hmem).
  split; [exact Hnd|]. intros a. unfold first_occurrences. rewrite Hmem.
  rewrite elem_of_nil. tauto.
Qed.

Lemma ble_loop_keys clock events k :
  dict_keys (for_each (on_detect clock) [] events k).1
  = first_occurrences ((λ ev, detect_address ev.1) <$> events).
Proof.
  apply (loop_keys (on_detect clock) (λ ev, detect_address ev.1)).
  intros. apply on_detect_keys.
Qed.

Lemma classic_loop_keys clock devices k :
  dict_keys (for_each (classic_upsert clock) [] devices k).1
  = first_occurrences (item_address <$> devices).
Proof.
  apply (loop_keys (classic_upsert clock) item_address).
  intros. apply classic_upsert_keys.
Qed.

(** X2.  The BLE adapter returns one record for each distinct address its
    events resolve to, in the order in which the addresses first appeared;
    no record is stored under the empty address; every record carries its
    key, has transport BLE and no device class. *)
Theorem scan_ble_records clock bleak k :
  let events := from_option detections [] bleak in
  let store := (scan_ble clock bleak k).1 in
  dict_keys store = first_occurrences ((λ ev, detect_address ev.1) <$> events)
  ∧ NoDup (dict_keys store)
  ∧ (∀ a, a ∈ dict_keys store
          ↔ (∃ ev, ev ∈ events ∧ detect_address ev.1 = a))
  ∧ ("" ∉ dict_keys store)
  ∧ ∀ a r, dict_get a store = Some r →
      address r = a ∧ transport r = "BLE" ∧ device_class r = None.
Proof.
  intros events store. unfold store. rewrite scan_ble_run. fold events.
  pose proof (ble_loop_keys clock events k) as Hkeys.
  destruct (first_occurrences_spec ((λ ev, detect_address ev.1) <$> events))
    as [Hnd Hmem].
  assert (∀ a, a ∈ dict_keys (for_each (on_detect clock) [] events k).1
               ↔ (∃ ev, ev ∈ events ∧ detect_address ev.1 = a)) as Hmem'.
  { intros a. rewrite Hkeys, Hmem, list_elem_of_fmap. naive_solver. }
  split_and!; [done|by rewrite Hkeys|done| |].
  - intros [ev [_ Hev]]%Hmem'. by apply (detect_address_ne ev.1).
  - intros a r Hget.
    destruct (ble_loop_wf clock events [] k store_wf_nil) as [_ Hwf].
    destruct (Hwf _ _ Hget) as [Haddr _].
    destruct (ble_loop_made clock events k _ _ Hget) as [Htr Hdc]. done.
Qed.

Lemma classic_loop_blank clock devices k a r :
  dict_get a (for_each (classic_upsert clock) [] devices k).1 = Some r →
  transport r = "Classic" ∧ rssi r = None ∧ tx_power r = None
  ∧ appearance r = None ∧ connectable r = None ∧ address_type r = None
  ∧ service_uuids r = ∅ ∧ service_data r = []
  ∧ manufacturer_data r = [].
Proof.
  intros Hget.
  assert (∀ {X} (f : DeviceRecord → X) (x0 : X),
            (∀ k, f (DeviceRecord_init clock a "Classic" k).1 = x0) →
            (∀ item r k,
               f (update_last_seen clock (classic_fields item r) k).1 = f r) →
            f r = x0) as Hblank.
  { intros X f x0 Hinit Hstep.
    pose proof (classic_observe clock f x0 (λ _ y, y) a Hinit Hstep
                  devices [] k) as Hobs.
    rewrite Hget in Hobs. simpl in Hobs. by rewrite foldl_keep in Hobs. }
  split_and!; by apply Hblank.
Qed.

(** X3.  The Classic adapter returns one record for each distinct address of
    the inquiry result, in the order in which the addresses first appeared;
    every record carries its key and has transport Classic, and none of the
    fields only the BLE adapter assigns is ever set on it. *)
Theorem scan_classic_records clock bluetooth k records k' :
  scan_classic clock bluetooth k = (Ok records, k') →
  let devices := items_processed ModeClassic bluetooth in
  dict_keys records = first_occurrences (item_address <$> devices)
  ∧ NoDup (dict_keys records)
  ∧ ∀ a r, dict_get a records = Some r →
      address r = a ∧ transport r = "Classic"
      ∧ rssi r = None ∧ tx_power r = None ∧ appearance r = None
      ∧ connectable r = None ∧ address_type r = None
      ∧ service_uuids r = ∅ ∧ service_data r = []
      ∧ manufacturer_data r = [].
Proof.
  intros Hscan. cbv zeta.
  pose proof (scan_classic_wf _ _ _ _ _ Hscan) as [Hnd Hwf].
  apply scan_classic_run in Hscan.
  change (items_processed ModeClassic bluetooth)
    with (match bluetooth with
          | Some bt =>
              match inquiry bt with Ok devices => devices | Raise _ => [] end
          | None => []
          end).
  set (devices := match bluetooth with Some _ => _ | None => _ end) in *.
  assert (records = (for_each (classic_upsert clock) [] devices k).1) as ->.
  { by rewrite <-Hscan. }
  split_and!; [apply classic_loop_keys|done|].
  intros a r Hget. destruct (Hwf _ _ Hget) as [Haddr _].
  split; [done|]. by apply (classic_loop_blank clock devices k a).
Qed.

Lemma scan_classic_records_witness :
  ∃ records k',
    scan_classic example_clock (Some collision_inquiry) 0%nat
    = (Ok records, k')
    ∧ dict_keys records = ["AA:BB"; "11:22"].
Proof.
  eexists _, _. split; [vm_compute; reflexivity|].
  rewrite (proj1 (scan_classic_records example_clock (Some collision_inquiry)
                    0%nat _ _ ltac:(vm_compute; reflexivity))).
  vm_compute. reflexivity.
Defined.

Lemma scan_classic_loop clock bluetooth k records k' :
  scan_classic clock bluetooth k = (Ok records, k') →
  records
  = (for_each (classic_upsert clock) []
       (items_processed ModeClassic bluetooth) k).1.
Proof.
  intros Hscan%scan_classic_run.
  change (items_processed ModeClassic bluetooth)
    with (match bluetooth with
          | Some bt =>
              match inquiry bt with Ok devices => devices | Raise _ => [] end
          | None => []
          end).
  by rewrite <-Hscan.
Qed.

Lemma classic_loop_device_class clock devices k a r :
  dict_get a (for_each (classic_upsert clock) [] devices k).1 = Some r →
  device_class r = from_option item_class None (last (items_for a devices)).
Proof.
  intros Hget.
  pose proof (classic_observe clock device_class None (λ item _, item_class item)
                a ltac:(done) ltac:(done) devices [] k) as Hobs.
  rewrite Hget in Hobs. simpl in Hobs. by rewrite foldl_overwrite in Hobs.
Qed.

(** X4.  The device class of a Classic record is the one of the last tuple
    of the inquiry for its address: every tuple overwrites it, also a tuple
    that carries none, which erases the class of an earlier tuple. *)
Theorem classic_device_class_last_wins clock bluetooth k records k' a r :
  scan_classic clock bluetooth k = (Ok records, k') →
  dict_get a records = Some r →
  ∃ item,
    last (items_for a (items_processed ModeClassic bluetooth)) = Some item
    ∧ device_class r = item_class item.
Proof.
  intros Hscan Hget. rewrite (scan_classic_loop _ _ _ _ _ Hscan) in Hget.
  pose proof (classic_loop_device_class _ _ _ _ _ Hget) as Hdc.
  destruct (last (items_for a (items_processed ModeClassic bluetooth)))
    as [item|] eqn:Hlast; [eauto|].
  exfalso. apply last_None in Hlast.
  pose proof (classic_loop_sightings clock a
                (items_processed ModeClassic bluetooth) [] k) as Hcount.
  fold (item_address) in Hcount.
  pose proof (classic_loop_wf clock (items_processed ModeClassic bluetooth)
                [] k store_wf_nil) as Hwf.
  pose proof (sightings_Some_pos _ _ _ Hwf Hget) as Hpos.
  rewrite (sightings_at_Some _ _ _ Hget) in Hcount.
  unfold classic_items_for in Hcount. unfold items_for, item_address in Hlast.
  rewrite Hlast in Hcount. change (sightings_at a []) with 0 in Hcount.
  simpl in Hcount. lia.
Qed.

Lemma classic_device_class_last_wins_witness :
  ∃ records k' r,
    scan_classic example_clock
      (Some {| discover_devices_class :=
                 Ok [Item3 "AA:BB" (Some "Phone") (Some 42);
                     Item3 "AA:BB" None None];
               discover_devices := Ok [] |}) 0%nat
    = (Ok records, k')
    ∧ dict_get "AA:BB" records = Some r
    ∧ device_class r = None.
Proof.
  eexists _, _, _. split; [vm_compute; reflexivity|].
  split; [vm_compute; reflexivity|].
  destruct (classic_device_class_last_wins example_clock
              (Some {| discover_devices_class :=
                         Ok [Item3 "AA:BB" (Some "Phone") (Some 42);
                             Item3 "AA:BB" None None];
                       discover_devices := Ok [] |}) 0%nat _ _ "AA:BB" _
              ltac:(vm_compute; reflexivity) ltac:(vm_compute; reflexivity))
    as (item & Hlast & Hdc).
  rewrite Hdc. vm_compute in Hlast. by injection Hlast as <-.
Defined.

(** X5.  On a provider whose [discover_devices] does not accept
    [lookup_class], the [TypeError] is caught and the inquiry is made again
    without it: the adapter does not raise, and every record it returns is
    without a device class. *)
Theorem classic_without_class_lookup clock bt pairs k :
  discover_devices_class bt = Raise TypeError →
  discover_devices bt = Ok pairs →
  ∃ records k',
    scan_classic clock (Some bt) k = (Ok records, k')
    ∧ dict_keys records = first_occurrences (fst <$> pairs)
    ∧ ∀ a r, dict_get a records = Some r → device_class r = None.
Proof.
  intros Hclass Hnames.
  assert (inquiry bt = Ok (map (λ an, Item3 an.1 an.2 None) pairs)) as Hinq.
  { unfold inquiry. by rewrite Hclass, Hnames. }
  destruct (scan_classic clock (Some bt) k) as [[records|e] k'] eqn:Hscan.
  2:{ unfold scan_classic in Hscan. rewrite Hinq in Hscan.
      unfold mbind, Clocked_bind, mret, Clocked_ret in Hscan.
      by destruct (for_each _ _ _ _). }
  exists records, k'. split; [done|].
  pose proof (scan_classic_loop _ _ _ _ _ Hscan) as ->.
  unfold items_processed. simpl. rewrite Hinq. split.
  - rewrite classic_loop_keys. f_equal.
    change (map ?f pairs) with (f <$> pairs). rewrite <-list_fmap_compose.
    by apply list_fmap_ext.
  - intros a r Hget. rewrite (classic_loop_device_class _ _ _ _ _ Hget).
    destruct (last _) as [item|] eqn:Hlast; [|done].
    apply last_Some_elem_of in Hlast.
    apply list_elem_of_filter in Hlast as [_ Hin].
    change (map ?f pairs) with (f <$> pairs) in Hin.
    apply list_elem_of_fmap in Hin as (an & -> & _). done.
Qed.

Lemma classic_without_class_lookup_witness :
  ∃ records k',
    scan_classic example_clock (Some scenario_B) 0%nat = (Ok records, k')
    ∧ dict_keys records = ["11:22"; "33:44"]
    ∧ ∀ a r, dict_get a records = Some r → device_class r = None.
Proof.
  destruct (classic_without_class_lookup example_clock scenario_B
              [("11:22", Some "Phone"); ("33:44", None)] 0%nat
              eq_refl eq_refl) as (records & k' & Hscan & Hkeys & Hdc).
  exists records, k'. split; [exact Hscan|]. split; [|exact Hdc].
  rewrite Hkeys. vm_compute. reflexivity.
Defined.

(** ** Names and last-write-wins fields *)

Lemma detect_fields_name device adv r :
  name (detect_fields device adv r)
  = py_or truthy_str (event_name (device, adv)) (name r).
Proof.
  simpl. unfold event_name, py_or. simpl.
  destruct (truthy_str (dev_name device)) eqn:Hdev; [by rewrite Hdev|].
  by destruct (truthy_str (local_name adv)) eqn:Hloc; rewrite ?Hloc.
Qed.

Lemma latest_name_truthy names :
  latest_name names = None ∨ truthy_str (latest_name names) = true.
Proof.
  unfold latest_name.
  destruct (last (filter (λ n, truthy_str n = true) names)) as [n|] eqn:Hlast;
    [|by left].
  right. apply last_Some_elem_of in Hlast.
  by apply list_elem_of_filter in Hlast as [? _].
Qed.

(** X6.  The name of a record is the name of the latest event (BLE) or
    tuple (Classic) for its address that carried a non-empty name, a BLE
    event's device-level name going before its local name; an event or
    tuple without a name leaves the name as it is.  So a name is never lost
    once known, and never the empty string. *)
Theorem name_is_latest_given clock :
  (∀ bleak k a r,
     dict_get a (scan_ble clock bleak k).1 = Some r →
     name r = latest_name
                (event_name <$> events_for a (from_option detections [] bleak)))
  ∧ (∀ bluetooth k records k' a r,
       scan_classic clock bluetooth k = (Ok records, k') →
       dict_get a records = Some r →
       name r = latest_name
                  ((λ item, (unpack_item item).1.2)
                     <$> items_for a (items_processed ModeClassic bluetooth)))
  ∧ (∀ names, latest_name names ≠ Some "")
  ∧ (∀ names nm,
       truthy_str nm = true → nm ∈ names → is_Some (latest_name names)).
Proof.
  split_and!.
  - intros bleak k a r. rewrite scan_ble_run. intros Hget.
    pose proof (ble_observe clock name None
                  (λ ev n, py_or truthy_str (event_name ev) n) a
                  ltac:(done)
                  (λ ev r k, detect_fields_name ev.1 ev.2 r)
                  (from_option detections [] bleak) [] k) as Hobs.
    rewrite Hget in Hobs. simpl in Hobs. rewrite Hobs. apply foldl_names.
  - intros bluetooth k records k' a r Hscan Hget.
    rewrite (scan_classic_loop _ _ _ _ _ Hscan) in Hget.
    pose proof (classic_observe clock name None
                  (λ item n, py_or truthy_str (unpack_item item).1.2 n) a
                  ltac:(done) ltac:(done)
                  (items_processed ModeClassic bluetooth) [] k) as Hobs.
    rewrite Hget in Hobs. simpl in Hobs. rewrite Hobs. apply foldl_names.
  - intros names Heq. destruct (latest_name_truthy names) as [Hn|Ht].
    + congruence.
    + by rewrite Heq in Ht.
  - intros names nm Ht Hin. unfold latest_name.
    destruct (last (filter (λ n, truthy_str n = true) names)) as [n|] eqn:Hlast.
    + apply last_Some_elem_of, list_elem_of_filter in Hlast as [Hn _].
      destruct n; [by eexists|done].
    + apply last_None in Hlast.
      assert (nm ∈ filter (λ n, truthy_str n = true) names) as Hnm.
      { by apply list_elem_of_filter. }
      rewrite Hlast in Hnm. by apply elem_of_nil in Hnm.
Qed.

(** X7.  On a BLE record the signal strength, the transmit power, the
    appearance, the connectable flag and the address type are those of the
    last event for its address alone: values of earlier events are not
    retained, also where the last event has none. *)
Theorem ble_last_event_wins clock bleak k a r :
  dict_get a (scan_ble clock bleak k).1 = Some r →
  ∃ ev,
    last (events_for a (from_option detections [] bleak)) = Some ev
    ∧ rssi r = (if adv_rssi ev.2 is Some v then Some v else dev_rssi ev.1)
    ∧ tx_power r = adv_tx_power ev.2
    ∧ appearance r = adv_appearance ev.2
    ∧ connectable r = adv_connectable ev.2
    ∧ address_type r = adv_address_type ev.2.
Proof.
  rewrite scan_ble_run. intros Hget.
  set (events := from_option detections [] bleak) in *.
  assert (∀ {X} (f : DeviceRecord → X) (x0 : X)
            (h : BLEDevice * AdvertisementData → X),
            (∀ k, f (DeviceRecord_init clock a "BLE" k).1 = x0) →
            (∀ ev r k,
               f (update_last_seen clock (detect_fields ev.1 ev.2 r) k).1
               = h ev) →
            f r = from_option h x0 (last (events_for a events))) as Hlast.
  { intros X f x0 h Hinit Hstep.
    pose proof (ble_observe clock f x0 (λ ev _, h ev) a Hinit Hstep
                  events [] k) as Hobs.
    rewrite Hget in Hobs. simpl in Hobs. by rewrite foldl_overwrite in Hobs. }
  destruct (last (events_for a events)) as [ev|] eqn:Hev.
  - exists ev. split; [done|].
    split_and!.
    + by apply (Hlast _ rssi None
                  (λ ev, if adv_rssi ev.2 is Some v then Some v
                         else dev_rssi ev.1)).
    + by apply (Hlast _ tx_power None (λ ev, adv_tx_power ev.2)).
    + by apply (Hlast _ appearance None (λ ev, adv_appearance ev.2)).
    + by apply (Hlast _ connectable None (λ ev, adv_connectable ev.2)).
    + by apply (Hlast _ address_type None (λ ev, adv_address_type ev.2)).
  - exfalso. apply last_None in Hev.
    pose proof (ble_loop_sightings clock a events [] k) as Hcount.
    pose proof (ble_loop_wf clock events [] k store_wf_nil) as Hwf.
    pose proof (sightings_Some_pos _ _ _ Hwf Hget) as Hpos.
    rewrite (sightings_at_Some _ _ _ Hget) in Hcount.
    unfold ble_events_for in Hcount. unfold events_for in Hev.
    rewrite Hev in Hcount. change (sightings_at a []) with 0 in Hcount.
    simpl in Hcount. lia.
Qed.

Lemma ble_last_event_wins_witness :
  ∃ r,
    dict_get "AA:BB" (scan_ble example_clock (Some scenario_A) 0%nat).1
    = Some r
    ∧ rssi r = Some (-45).
Proof.
  eexists. split; [vm_compute; reflexivity|].
  destruct (ble_last_event_wins example_clock (Some scenario_A) 0%nat "AA:BB" _
              ltac:(vm_compute; reflexivity)) as (ev & Hlast & Hrssi & _).
  rewrite Hrssi. vm_compute in Hlast. by injection Hlast as <-.
Defined.

(** ** Service data and manufacturer data *)

Lemma foldl_setitem_update {A K V} `{EqDecision K} (fk : A → K) (fv : A → V)
    (d : list (K * V)) (l : list A) :
  foldl (λ d x, dict_setitem (fk x) (fv x) d) d l
  = dict_update d ((λ x, (fk x, fv x)) <$> l).
Proof.
  unfold dict_update. revert d.
  induction l as [|x l IH]; intros d; [done|]. cbn [foldl]. rewrite IH. done.
Qed.

(** What a dictionary holds after the pairs of an event were written into
    it, when no two of the pairs have the same key. *)
Lemma dict_get_written {A K V} `{EqDecision K} (fk : A → K) (fv : A → V)
    (d : list (K * V)) (l : list A) :
  NoDup (fk <$> l) →
  (∀ x, x ∈ l →
     dict_get (fk x) (foldl (λ d x, dict_setitem (fk x) (fv x) d) d l)
     = Some (fv x))
  ∧ (∀ key, key ∉ fk <$> l →
       dict_get key (foldl (λ d x, dict_setitem (fk x) (fv x) d) d l)
       = dict_get key d).
Proof.
  intros Hnd. rewrite foldl_setitem_update.
  assert (dict_keys ((λ x, (fk x, fv x)) <$> l) = fk <$> l) as Hkeys.
  { unfold dict_keys. rewrite <-list_fmap_compose. by apply list_fmap_ext. }
  split.
  - intros x Hx. rewrite dict_get_update, dict_get_reverse by by rewrite Hkeys.
    rewrite (dict_elem_of_get (fk x) (fv x)); [done|by rewrite Hkeys|].
    apply list_elem_of_fmap. eauto.
  - intros key Hkey. rewrite dict_get_update, dict_get_reverse
      by by rewrite Hkeys.
    assert (dict_get key ((λ x, (fk x, fv x)) <$> l) = None) as ->; [|done].
    apply dict_get_None. by rewrite Hkeys.
Qed.

(** X8.  After a BLE event whose service data and manufacturer data have no
    repeated keys, the record of its address holds, for every key of the
    event, the event's payload as hexadecimal text, whatever it held for
    that key before; every other key holds what it held before the event
    (nothing for a record the event created). *)
Theorem payloads_written clock (st : Store) ev k :
  NoDup (adv_service_data ev.2).*1 →
  NoDup ((λ cb, manufacturer_key cb.1) <$> adv_manufacturer_data ev.2) →
  ∃ rec',
    dict_get (detect_address ev.1) (on_detect clock st ev k).1 = Some rec'
    ∧ (∀ u b, (u, b) ∈ adv_service_data ev.2 →
         dict_get u (service_data rec') = Some (bytes_hex b))
    ∧ (∀ u, u ∉ (adv_service_data ev.2).*1 →
         dict_get u (service_data rec')
         = dict_get u (from_option service_data []
                         (dict_get (detect_address ev.1) st)))
    ∧ (∀ c b, (c, b) ∈ adv_manufacturer_data ev.2 →
         dict_get (manufacturer_key c) (manufacturer_data rec')
         = Some (bytes_hex b))
    ∧ (∀ c, c ∉ (λ cb, manufacturer_key cb.1) <$> adv_manufacturer_data ev.2 →
         dict_get c (manufacturer_data rec')
         = dict_get c (from_option manufacturer_data []
                         (dict_get (detect_address ev.1) st))).
Proof.
  intros Hsd Hmd. rewrite on_detect_run. cbv zeta. cbn [fst].
  eexists. split; [apply dict_get_setitem_eq|].
  assert (service_data (upsert_base clock (detect_address ev.1) "BLE" st k).1
          = from_option service_data [] (dict_get (detect_address ev.1) st))
    as Hs.
  { unfold upsert_base. by destruct (dict_get (detect_address ev.1) st). }
  assert (manufacturer_data
            (upsert_base clock (detect_address ev.1) "BLE" st k).1
          = from_option manufacturer_data []
              (dict_get (detect_address ev.1) st)) as Hm.
  { unfold upsert_base. by destruct (dict_get (detect_address ev.1) st). }
  assert (∀ b k0,
            service_data
              (update_last_seen clock (detect_fields ev.1 ev.2 b) k0).1
            = foldl (λ d ub, dict_setitem ub.1 (bytes_hex ub.2) d)
                (service_data b) (adv_service_data ev.2)) as -> by done.
  assert (∀ b k0,
            manufacturer_data
              (update_last_seen clock (detect_fields ev.1 ev.2 b) k0).1
            = foldl (λ d cb, dict_setitem (manufacturer_key cb.1)
                               (bytes_hex cb.2) d)
                (manufacturer_data b) (adv_manufacturer_data ev.2))
    as -> by done.
  rewrite Hs, Hm.
  destruct (dict_get_written (λ ub : string * list byte, ub.1)
              (λ ub, bytes_hex ub.2)
              (from_option service_data [] (dict_get (detect_address ev.1) st))
              (adv_service_data ev.2) Hsd) as [Hs1 Hs2].
  destruct (dict_get_written (λ cb : Cid * list byte, manufacturer_key cb.1)
              (λ cb, bytes_hex cb.2)
              (from_option manufacturer_data []
                 (dict_get (detect_address ev.1) st))
              (adv_manufacturer_data ev.2) Hmd) as [Hm1 Hm2].
  split_and!.
  - intros u b Hin. apply (Hs1 (u, b) Hin).
  - exact Hs2.
  - intros c b Hin. apply (Hm1 (c, b) Hin).
  - exact Hm2.
Qed.

Lemma payloads_written_witness :
  ∃ rec',
    dict_get "AA:BB" (on_detect example_clock [] beacon_event 0%nat).1
    = Some rec'
    ∧ dict_get "feaa" (service_data rec') = Some "10ff"
    ∧ dict_get (CidInt 76) (manufacturer_data rec') = Some "0215".
Proof.
  destruct (payloads_written example_clock [] beacon_event 0%nat)
    as (rec' & Hget & Hs & _ & Hm & _).
  { vm_compute. apply NoDup_singleton. }
  { vm_compute. apply NoDup_singleton. }
  exists rec'. split; [exact Hget|]. split.
  - apply (Hs "feaa" [Byte.x10; Byte.xff]). left.
  - apply (Hm (CidInt 76) [Byte.x02; Byte.x15]). left.
Defined.

(** ** Hexadecimal text *)

Lemma hex_digit_value (n : N) :
  (n < 16)%N →
  Json.hex_value (hex_digit n) = Some n ∧ is_lower_hex (hex_digit n) = true.
Proof.
  assert (Forall (λ i, Json.hex_value (hex_digit (N.of_nat i))
                       = Some (N.of_nat i)
                       ∧ is_lower_hex (hex_digit (N.of_nat i)) = true)
                 (seq 0 16)) as Htable.
  { refine (bool_decide_unpack _ _). vm_compute. exact I. }
  intros Hn. rewrite Forall_forall in Htable.
  rewrite <-(N2Nat.id n). apply Htable. apply elem_of_seq. lia.
Qed.

Lemma byte_hex_inj (x y : byte) :
  hex_digit (Byte.to_N x / 16) = hex_digit (Byte.to_N y / 16) →
  hex_digit (Byte.to_N x mod 16) = hex_digit (Byte.to_N y mod 16) →
  x = y.
Proof.
  intros Hhi Hlo.
  pose proof (Byte.to_N_bounded x) as Hx.
  pose proof (Byte.to_N_bounded y) as Hy.
  assert (Byte.to_N x / 16 < 16)%N as Hxq by (apply N.Div0.div_lt_upper_bound; lia).
  assert (Byte.to_N y / 16 < 16)%N as Hyq by (apply N.Div0.div_lt_upper_bound; lia).
  assert (Byte.to_N x mod 16 < 16)%N as Hxr by (apply N.mod_lt; lia).
  assert (Byte.to_N y mod 16 < 16)%N as Hyr by (apply N.mod_lt; lia).
  apply (f_equal Json.hex_value) in Hhi, Hlo.
  rewrite (proj1 (hex_digit_value _ Hxq)), (proj1 (hex_digit_value _ Hyq))
    in Hhi.
  rewrite (proj1 (hex_digit_value _ Hxr)), (proj1 (hex_digit_value _ Hyr))
    in Hlo.
  injection Hhi as Hhi. injection Hlo as Hlo.
  assert (Byte.to_N x = Byte.to_N y) as Heq.
  { rewrite (N.div_mod (Byte.to_N x) 16), (N.div_mod (Byte.to_N y) 16) by lia.
    by rewrite Hhi, Hlo. }
  apply (f_equal Byte.of_N) in Heq. rewrite !Byte.of_to_N in Heq.
  by injection Heq.
Qed.

(** X9.  The hexadecimal text stored for a payload has two characters for
    each byte, all of them digits or the lower-case letters a to f, and two
    different payloads never have the same text. *)
Theorem bytes_hex_faithful :
  (∀ b, String.length (bytes_hex b) = (2 * length b)%nat)
  ∧ (∀ b, forallb is_lower_hex (String.list_ascii_of_string (bytes_hex b))
          = true)
  ∧ (∀ b1 b2, bytes_hex b1 = bytes_hex b2 → b1 = b2).
Proof.
  split_and!.
  - intros b. induction b as [|x b IH]; [done|]. simpl. rewrite IH. lia.
  - intros b. induction b as [|x b IH]; [done|]. cbn [bytes_hex].
    pose proof (Byte.to_N_bounded x) as Hx. simpl.
    rewrite IH, !andb_true_iff. split_and!; [| |done].
    + apply hex_digit_value, N.Div0.div_lt_upper_bound. lia.
    + apply hex_digit_value, N.mod_lt. lia.
  - intros b1. induction b1 as [|x b1 IH]; intros [|y b2]; try done.
    cbn [bytes_hex]. intros [= Hhi Hlo Hrest].
    f_equal; [by apply byte_hex_inj|by apply IH].
Qed.

(** ** The address of a BLE event *)

(** X10.  The address a BLE event is filed under is never empty: it is the
    device's [address] when that is present and not empty, else its
    [mac_address] when that is present and not empty, else "UNKNOWN"; an
    address given as the empty text is treated like a missing one. *)
Theorem detect_address_fallbacks (device : BLEDevice) :
  detect_address device ≠ ""
  ∧ (truthy_str (dev_address device) = true →
     dev_address device = Some (detect_address device))
  ∧ (truthy_str (dev_address device) = false →
     truthy_str (dev_mac_address device) = true →
     dev_mac_address device = Some (detect_address device))
  ∧ (truthy_str (dev_address device) = false →
     truthy_str (dev_mac_address device) = false →
     detect_address device = "UNKNOWN").
Proof.
  split; [apply detect_address_ne|].
  unfold detect_address, py_or.
  destruct (dev_address device) as [[|c s]|];
    destruct (dev_mac_address device) as [[|c' s']|]; simpl; done.
Qed.

(** ** The files a run writes *)

(** X11.  A run that reaches the outputs writes at least one file and at
    most two: the JSON file and then the CSV file for the paths that are
    given, and the default JSON file exactly when no file is written for a
    given path.  A path given as the empty text counts as not given. *)
Theorem output_files (args : Args) (ts : string) (records : Store) :
  let files := write_outputs args ts records in
  let given (p : option string) := truthy_str p = true in
  (1 ≤ length files ≤ 2)%nat
  ∧ (given (json_path args) → given (csv_path args) →
     files = [write_json (default "" (json_path args)) records;
              write_csv (default "" (csv_path args)) records])
  ∧ (given (json_path args) → ¬ given (csv_path args) →
     files = [write_json (default "" (json_path args)) records])
  ∧ (¬ given (json_path args) → given (csv_path args) →
     files = [write_csv (default "" (csv_path args)) records])
  ∧ (¬ given (json_path args) → ¬ given (csv_path args) →
     files = [write_json (default_json ts) records])
  ∧ ¬ given (Some "") ∧ ¬ given None.
Proof.
  cbv zeta. unfold write_outputs.
  destruct (truthy_str (json_path args)), (truthy_str (csv_path args));
    simpl; split_and!; try done; try lia; intros; done.
Qed.



(** ** How a run ends *)





(** ** The merged store *)

Lemma filter_ext_in {A} (P Q : A → Prop) `{∀ x, Decision (P x)}
    `{∀ x, Decision (Q x)} (l : list A) :
  (∀ x, x ∈ l → P x ↔ Q x) → filter P l = filter Q l.
Proof.
  induction l as [|x l IH]; intros Hext; [done|].
  rewrite !filter_cons. rewrite IH by (intros y Hy; apply Hext; by right).
  destruct (decide (P x)) as [HP|HP], (decide (Q x)) as [HQ|HQ]; try done.
  - exfalso. apply HQ, Hext; [left|done].
  - exfalso. apply HP, Hext; [left|done].
Qed.

Lemma append_absent (acc l : list string) :
  NoDup l →
  foldl (λ acc a, if decide (a ∈ acc) then acc else acc ++ [a]) acc l
  = acc ++ filter (λ a, a ∉ acc) l.
Proof.
  revert acc. induction l as [|x l IH]; intros acc Hnd.
  - by rewrite app_nil_r.
  - apply NoDup_cons in Hnd as [Hx Hnd]. cbn [foldl]. rewrite filter_cons.
    destruct (decide (x ∈ acc)) as [Hin|Hnot].
    + rewrite decide_False by (intros ?; done). by apply IH.
    + rewrite decide_True by done. rewrite IH by done.
      rewrite <-app_assoc. simpl. do 2 f_equal.
      apply filter_ext_in. intros a Ha.
      rewrite elem_of_app, list_elem_of_singleton.
      split; [tauto|]. intros Hacc [?| ->]; done.
Qed.

(** X14.  In Both mode the final store holds the records of the BLE scan
    first, in their order, and after them the records of the addresses that
    only the Classic inquiry found, in the order of the inquiry; a record of
    an address the inquiry did not find is exactly as the BLE scan left
    it. *)
Theorem merged_store clock bleak bluetooth k ble k1 classic_records k2 :
  scan_ble clock bleak (S k) = (ble, k1) →
  scan_classic clock bluetooth k1 = (Ok classic_records, k2) →
  ∃ final k3,
    discover clock ModeBoth bleak bluetooth k = (Ok final, k3)
    ∧ dict_keys final
      = dict_keys ble
        ++ filter (λ a, a ∉ dict_keys ble) (dict_keys classic_records)
    ∧ (∀ a, a ∉ dict_keys classic_records → dict_get a final = dict_get a ble)
    ∧ (∀ a rec, a ∉ dict_keys ble → dict_get a classic_records = Some rec →
         dict_get a final = Some rec).
Proof.
  intros Hble Hcls.
  destruct (scan_classic_wf _ _ _ _ _ Hcls) as [Hnd _].
  exists (for_each (merge_item clock) ble classic_records k2).1,
         (for_each (merge_item clock) ble classic_records k2).2.
  split_and!.
  - rewrite discover_run. unfold events_processed. simpl.
    rewrite <-scan_ble_run, Hble. simpl. by rewrite Hcls.
  - rewrite (loop_keys (merge_item clock) fst)
      by (intros; apply merge_item_keys).
    by apply append_absent.
  - intros a Ha. apply dict_get_None in Ha.
    pose proof (merge_loop_get clock a classic_records ble k2 Hnd) as Hm.
    cbv zeta in Hm. by rewrite Ha in Hm.
  - intros a rec Ha Hrec. apply dict_get_None in Ha.
    pose proof (merge_loop_get clock a classic_records ble k2 Hnd) as Hm.
    cbv zeta in Hm. by rewrite Hrec, Ha in Hm.
Qed.

Lemma merged_store_witness :
  ∃ final k3,
    discover example_clock ModeBoth (Some collision_session)
      (Some collision_inquiry) 0%nat = (Ok final, k3)
    ∧ dict_keys final = ["AA:BB"; "11:22"].
Proof.
  destruct (merged_store example_clock (Some collision_session)
              (Some collision_inquiry) 0%nat _ _ _ _
              ltac:(vm_compute; reflexivity) ltac:(vm_compute; reflexivity))
    as (final & k3 & Hrun & Hkeys & _).
  exists final, k3. split; [exact Hrun|].
  rewrite Hkeys. vm_compute. reflexivity.
Defined.

(** X15.  In the final store of a run a record has transport BLE when the
    BLE scan of the run had an event for its address, whether or not the
    Classic inquiry found the address too, and transport Classic
    otherwise. *)
Theorem transport_of_record clock m bleak bluetooth k final k' a r :
  discover clock m bleak bluetooth k = (Ok final, k') →
  dict_get a final = Some r →
  transport r
  = if decide (events_for a (events_processed m bleak) = []) then "Classic"
    else "BLE".
Proof.
  intros Hrun Hget. rewrite discover_run in Hrun. cbv zeta in Hrun.
  set (events := events_processed m bleak) in *.
  pose proof (ble_loop_made clock events (S k)) as Hmade.
  pose proof (ble_loop_wf clock events [] (S k) store_wf_nil) as Hwf.
  pose proof (ble_loop_sightings clock a events [] (S k)) as Hcount.
  change (sightings_at a []) with 0 in Hcount.
  unfold ble_events_for in Hcount. fold (events_for a events) in Hcount.
  destruct (for_each (on_detect clock) [] events (S k)) as [ble k1].
  simpl in *.
  assert (∀ rb, dict_get a ble = Some rb → events_for a events ≠ []) as Hsome.
  { intros rb Hb Hnil. pose proof (sightings_Some_pos _ _ _ Hwf Hb).
    rewrite (sightings_at_Some _ _ _ Hb), Hnil in Hcount. simpl in Hcount.
    lia. }
  assert (dict_get a ble = None → events_for a events = []) as Hnone.
  { intros Hb. rewrite (sightings_at_None _ _ Hb) in Hcount.
    destruct (events_for a events); [done|simpl in Hcount; lia]. }
  destruct (runs_classic m).
  - destruct (scan_classic clock bluetooth k1) as [[cls|e] k2] eqn:Hscan;
      [|done].
    destruct (scan_classic_wf _ _ _ _ _ Hscan) as [Hnd _].
    pose proof (merge_loop_get clock a cls ble k2 Hnd) as Hm. cbv zeta in Hm.
    pose proof (scan_classic_loop _ _ _ _ _ Hscan) as Hloop.
    destruct (for_each (merge_item clock) ble cls k2) as [merged k3].
    injection Hrun as <- <-. simpl in Hm.
    destruct (dict_get a cls) as [rc|] eqn:Hc.
    + destruct (dict_get a ble) as [rb|] eqn:Hb.
      * destruct Hm as (j & _ & Hm). rewrite Hget in Hm. injection Hm as ->.
        rewrite decide_False by eauto.
        by destruct (Hmade _ _ Hb).
      * rewrite Hget in Hm. injection Hm as ->.
        rewrite decide_True by auto. rewrite Hloop in Hc.
        by destruct (classic_loop_blank _ _ _ _ _ Hc).
    + rewrite Hget in Hm. symmetry in Hm.
      rewrite decide_False by eauto. by destruct (Hmade _ _ Hm).
  - injection Hrun as <- <-. rewrite decide_False by eauto.
    by destruct (Hmade _ _ Hget).
Qed.

Lemma transport_of_record_witness :
  ∃ final k' r,
    discover example_clock ModeBoth (Some collision_session)
      (Some collision_inquiry) 0%nat = (Ok final, k')
    ∧ dict_get "11:22" final = Some r
    ∧ transport r = "Classic".
Proof.
  eexists _, _, _. split; [vm_compute; reflexivity|].
  split; [vm_compute; reflexivity|].
  rewrite (transport_of_record example_clock ModeBoth (Some collision_session)
             (Some collision_inquiry) 0%nat _ _ "11:22" _
             ltac:(vm_compute; reflexivity) ltac:(vm_compute; reflexivity)).
  vm_compute. reflexivity.
Defined.

(** ** Rows in the order of first sighting *)

Lemma first_sightings_setitem_present a r r' (st : Store) :
  dict_get a st = Some r → first_seen r' = first_seen r →
  first_sightings (dict_setitem a r' st) = first_sightings st.
Proof.
  unfold first_sightings, dict_values.
  induction st as [|[a0 r0] st IH]; simpl; [done|].
  destruct (decide (a = a0)) as [->|Hne].
  - intros [= ->] Hfirst. csimpl. by rewrite Hfirst.
  - intros Hget Hfirst. csimpl. by rewrite IH.
Qed.

Lemma first_sightings_setitem_new a r' (st : Store) :
  dict_get a st = None →
  first_sightings (dict_setitem a r' st) = first_sightings st ++ [first_seen r'].
Proof.
  intros Hget. rewrite dict_setitem_new by done.
  unfold first_sightings, dict_values. by rewrite !fmap_app.
Qed.

Section sighting_order.
Variable clock : nat → string.
Hypothesis clock_mono : clock_monotone clock.

Lemma sighted_in_order_nil k0 k : sighted_in_order clock k0 k [].
Proof. split; [apply SSorted_nil|apply Forall_nil_2]. Qed.

(** An upsert that keeps the first sighting of an existing record keeps the
    first sightings in order. *)
Lemma upsert_sighted_in_order addr tr
    (assign : DeviceRecord → DeviceRecord) (st : Store) k0 k :
  (k0 ≤ k)%nat → sighted_in_order clock k0 k st →
  (∀ r, first_seen (assign r) = first_seen r) →
  let base := upsert_base clock addr tr st k in
  let seen := update_last_seen clock (assign base.1) base.2 in
  sighted_in_order clock k0 seen.2 (dict_setitem addr seen.1 st)
  ∧ (k0 ≤ seen.2)%nat.
Proof.
  intros Hk [Hsorted Hread] Hassign base seen.
  unfold seen, base, upsert_base.
  destruct (dict_get addr st) as [rec|] eqn:Hget; cbn [fst snd].
  - split; [|simpl; lia]. unfold sighted_in_order.
    rewrite (first_sightings_setitem_present addr rec)
      by (done || (simpl; by rewrite Hassign)).
    split; [done|]. eapply Forall_impl; [exact Hread|].
    intros t (j & Hj & ->). exists j. split; [simpl; lia|done].
  - split; [|simpl; lia]. unfold sighted_in_order.
    rewrite first_sightings_setitem_new by done. simpl.
    rewrite Hassign. simpl. split.
    + apply StronglySorted_app_2; [|done|repeat constructor].
      intros t1 t2 Ht1 ->%list_elem_of_singleton.
      rewrite Forall_forall in Hread.
      destruct (Hread t1 Ht1) as (j & Hj & ->). apply clock_mono. lia.
    + apply Forall_app. split.
      * eapply Forall_impl; [exact Hread|].
        intros t (j & Hj & ->). exists j. split; [lia|done].
      * apply Forall_singleton. exists k. split; [lia|done].
Qed.

Lemma ble_loop_sighted_in_order events k0 :
  let ble := for_each (on_detect clock) [] events k0 in
  sighted_in_order clock k0 ble.2 ble.1 ∧ (k0 ≤ ble.2)%nat.
Proof.
  apply (for_each_invariant (on_detect clock)
           (λ st k, sighted_in_order clock k0 k st ∧ (k0 ≤ k)%nat)).
  - intros st ev k _ [Hst Hk]. rewrite on_detect_run.
    by apply (upsert_sighted_in_order _ "BLE" (detect_fields ev.1 ev.2)).
  - split; [apply sighted_in_order_nil|done].
Qed.

Lemma classic_loop_sighted_in_order devices k0 :
  let cls := for_each (classic_upsert clock) [] devices k0 in
  sighted_in_order clock k0 cls.2 cls.1 ∧ (k0 ≤ cls.2)%nat.
Proof.
  apply (for_each_invariant (classic_upsert clock)
           (λ st k, sighted_in_order clock k0 k st ∧ (k0 ≤ k)%nat)).
  - intros st item k _ [Hst Hk]. rewrite classic_upsert_shape.
    by apply (upsert_sighted_in_order _ "Classic" (classic_fields item)).
  - split; [apply sighted_in_order_nil|done].
Qed.

(** The merge keeps the first sightings in order when those of the store
    are in order, those of the records to merge are, and none of the former
    is later than any of the latter. *)
Lemma merge_loop_sorted (rest all : Store) k :
  StronglySorted String.le (first_sightings all) →
  StronglySorted String.le (first_sightings rest) →
  (∀ t1 t2, t1 ∈ first_sightings all → t2 ∈ first_sightings rest →
            String.le t1 t2) →
  StronglySorted String.le
    (first_sightings (for_each (merge_item clock) all rest k).1).
Proof.
  revert all k. induction rest as [|[a rec] rest IH];
    intros all k Hall Hrest Hcross; [done|].
  rewrite for_each_cons. unfold first_sightings, dict_values in Hrest.
  csimpl in Hrest. apply StronglySorted_cons in Hrest as [Hhead Hrest].
  assert (∀ t, t ∈ first_sightings rest → String.le (first_seen rec) t)
    as Hhead'.
  { intros t Ht. rewrite Forall_forall in Hhead. by apply Hhead. }
  assert (∀ t1 t2, t1 ∈ first_sightings all → t2 ∈ first_sightings rest →
                   String.le t1 t2) as Hcross'.
  { intros t1 t2 Ht1 Ht2. apply Hcross; [done|].
    unfold first_sightings, dict_values. csimpl. by right. }
  rewrite merge_item_run. cbn [fst snd].
  destruct (dict_get a all) as [existing|] eqn:Hget; cbn [fst snd].
  - apply IH; [|done|].
    + by rewrite (first_sightings_setitem_present a existing).
    + intros t1 t2. rewrite (first_sightings_setitem_present a existing)
        by done. apply Hcross'.
  - apply IH; [|done|].
    + rewrite first_sightings_setitem_new by done.
      apply StronglySorted_app_2; [|done|repeat constructor].
      intros t1 t2 Ht1 ->%list_elem_of_singleton. apply Hcross; [done|].
      unfold first_sightings, dict_values. csimpl. left.
    + intros t1 t2. rewrite first_sightings_setitem_new by done.
      intros [Ht1| ->%list_elem_of_singleton]%elem_of_app Ht2.
      * by apply Hcross'.
      * by apply Hhead'.
Qed.
End sighting_order.

(** X16.  With a clock that does not run backwards, the records of the
    final store, and so the rows of both outputs, are in the order of their
    first sighting: no record was first seen later than a record that
    comes after it. *)
Theorem rows_in_first_seen_order clock m bleak bluetooth k final k' :
  clock_monotone clock →
  discover clock m bleak bluetooth k = (Ok final, k') →
  StronglySorted String.le (first_seen <$> dict_values final).
Proof.
  intros Hmono Hrun. rewrite discover_run in Hrun. cbv zeta in Hrun.
  destruct (ble_loop_sighted_in_order clock Hmono (events_processed m bleak)
              (S k)) as [[Hble Hble_read] Hk1].
  destruct (for_each (on_detect clock) [] _ _) as [ble k1]. simpl in *.
  destruct (runs_classic m); [|by injection Hrun as <- <-].
  destruct (scan_classic clock bluetooth k1) as [[cls|e] k2] eqn:Hscan;
    [|done].
  pose proof (scan_classic_run clock _ _ _ _ Hscan) as Hloop.
  destruct (classic_loop_sighted_in_order clock Hmono
              match bluetooth with
              | Some bt =>
                  match inquiry bt with Ok ds => ds | Raise _ => [] end
              | None => []
              end k1) as [[Hcls Hcls_read] _].
  rewrite <-Hloop in Hcls, Hcls_read. simpl in Hcls, Hcls_read.
  pose proof (merge_loop_sorted clock cls ble k2 Hble Hcls) as Hmerged.
  destruct (for_each (merge_item clock) ble cls k2) as [merged k3].
  injection Hrun as <- <-. apply Hmerged.
  intros t1 t2 Ht1 Ht2. rewrite Forall_forall in Hble_read, Hcls_read.
  destruct (Hble_read t1 Ht1) as (j1 & Hj1 & ->).
  destruct (Hcls_read t2 Ht2) as (j2 & Hj2 & ->).
  apply Hmono. lia.
Qed.

Lemma rows_in_first_seen_order_witness :
  clock_monotone example_clock
  ∧ ∃ final k',
      discover example_clock ModeBoth (Some collision_session)
        (Some collision_inquiry) 0%nat = (Ok final, k')
      ∧ StronglySorted String.le (first_seen <$> dict_values final).
Proof.
  split; [exact example_clock_monotone|].
  eexists _, _. split; [vm_compute; reflexivity|].
  eapply (rows_in_first_seen_order example_clock ModeBoth
            (Some collision_session) (Some collision_inquiry) 0%nat _ _
            example_clock_monotone).
  vm_compute. reflexivity.
Defined.

(** ** A repeated advertisement *)

(** Writing pairs that a dictionary already holds changes nothing. *)
Lemma foldl_setitem_held {A K V} `{EqDecision K} (fk : A → K) (fv : A → V)
    (l : list A) (d : list (K * V)) :
  (∀ x, x ∈ l → dict_get (fk x) d = Some (fv x)) →
  foldl (λ d x, dict_setitem (fk x) (fv x) d) d l = d.
Proof.
  induction l as [|x l IH]; intros Hheld; [done|]. cbn [foldl].
  rewrite dict_setitem_id by (apply Hheld; left).
  apply IH. intros y Hy. apply Hheld. by right.
Qed.

Lemma foldl_setitem_twice {A K V} `{EqDecision K} (fk : A → K) (fv : A → V)
    (l : list A) (d : list (K * V)) :
  NoDup (fk <$> l) →
  foldl (λ d x, dict_setitem (fk x) (fv x) d)
        (foldl (λ d x, dict_setitem (fk x) (fv x) d) d l) l
  = foldl (λ d x, dict_setitem (fk x) (fv x) d) d l.
Proof.
  intros Hnd. apply foldl_setitem_held.
  by apply (dict_get_written fk fv d l).
Qed.

Lemma detect_fields_twice device adv r :
  NoDup (adv_service_data adv).*1 →
  NoDup ((λ cb, manufacturer_key cb.1) <$> adv_manufacturer_data adv) →
  unchanged_but_sighting (detect_fields device adv r)
    (detect_fields device adv (detect_fields device adv r)).
Proof.
  intros Hsd Hmd. unfold unchanged_but_sighting.
  rewrite !detect_fields_name, !detect_fields_uuids.
  repeat split.
  - unfold py_or.
    destruct (truthy_str (event_name (device, adv))) eqn:Hev;
      by rewrite ?Hev.
  - set_solver.
  - apply (foldl_setitem_twice (λ ub : string * list Byte.byte, ub.1)
             (λ ub, bytes_hex ub.2)); exact Hsd.
  - apply (foldl_setitem_twice
             (λ cb : Cid * list Byte.byte, manufacturer_key cb.1)
             (λ cb, bytes_hex cb.2)); exact Hmd.
Qed.

(** X17.  A BLE event delivered a second time right after the first changes
    the record of its address only in its sighting: the counter grows by
    one and [last_seen] is the new reading of the clock, every other field
    is as the first delivery left it, and the store keeps its addresses and
    their order.  (The keys of the event's service data and of its
    manufacturer data are distinct, as those of a dictionary are.) *)
Theorem repeated_event_is_a_sighting clock (st : Store) ev k :
  NoDup (adv_service_data ev.2).*1 →
  NoDup ((λ cb, manufacturer_key cb.1) <$> adv_manufacturer_data ev.2) →
  let once := on_detect clock st ev k in
  let twice := on_detect clock once.1 ev once.2 in
  ∃ r1 r2,
    dict_get (detect_address ev.1) once.1 = Some r1
    ∧ dict_get (detect_address ev.1) twice.1 = Some r2
    ∧ unchanged_but_sighting r1 r2
    ∧ device_class r2 = device_class r1
    ∧ sightings r2 = sightings r1 + 1
    ∧ last_seen r2 = clock once.2
    ∧ dict_keys twice.1 = dict_keys once.1
    ∧ twice.2 = S once.2.
Proof.
  intros Hsd Hmd once twice. unfold twice.
  rewrite (on_detect_run clock once.1). cbv zeta.
  unfold once. rewrite (on_detect_run clock st). cbv zeta. cbn [fst snd].
  set (addr := detect_address ev.1).
  set (base := upsert_base clock addr "BLE" st k).
  set (seen := update_last_seen clock (detect_fields ev.1 ev.2 base.1) base.2).
  assert (upsert_base clock addr "BLE" (dict_setitem addr seen.1 st) seen.2
          = (seen.1, seen.2)) as ->.
  { unfold upsert_base. by rewrite dict_get_setitem_eq. }
  cbn [fst snd]. eexists _, _.
  split; [apply dict_get_setitem_eq|].
  split; [apply dict_get_setitem_eq|].
  pose proof (detect_fields_twice ev.1 ev.2 base.1 Hsd Hmd) as Htwice.
  split; [|split; [done|split; [done|split; [done|split; [|done]]]]].
  - unfold unchanged_but_sighting in *. simpl.
    destruct Htwice as (?&?&Hname&?&?&?&?&?&Huuids&Hsdata&Hmdata&?).
    simpl in Hname, Huuids, Hsdata, Hmdata.
    repeat split; try done.
  - rewrite (dict_keys_setitem_in addr _ (dict_setitem addr seen.1 st)).
    rewrite decide_True; [done|].
    apply dict_get_is_Some. rewrite dict_get_setitem_eq. eauto.
Qed.

Lemma repeated_event_is_a_sighting_witness :
  ∃ r1 r2,
    dict_get "AA:BB" (on_detect example_clock [] beacon_event 0%nat).1
    = Some r1
    ∧ dict_get "AA:BB"
        (on_detect example_clock
           (on_detect example_clock [] beacon_event 0%nat).1 beacon_event
           (on_detect example_clock [] beacon_event 0%nat).2).1 = Some r2
    ∧ unchanged_but_sighting r1 r2
    ∧ sightings r2 = sightings r1 + 1.
Proof.
  destruct (repeated_event_is_a_sighting example_clock [] beacon_event 0%nat)
    as (r1 & r2 & H1 & H2 & Hsame & _ & Hcount & _).
  { vm_compute. apply NoDup_singleton. }
  { vm_compute. apply NoDup_singleton. }
  exists r1, r2. repeat split; try done; apply Hsame.
Defined.
